(** * radosgw_exporter: the collection pass of [RADOSGWCollector]

    A shallow embedding of [Collect] (the Prometheus collector of the RADOS
    Gateway exporter) and the properties of one collection pass: the usage
    aggregation, the walk over the users, the health and duration
    measurements.

    Conventions of the embedding.
    - The admin API client is an external collaborator; one pass sees it as
      a read-only oracle ([Client]): a result or an error for each query.
    - Go's [uint64] is [N]; Go's [int] and [int64] are [Z] with the 64-bit
      two's-complement wrap-around written out ([wrap_int64]).
    - Go's [float64] values that the pass computes are all integer valued
      (conversions of integers, their sums, and the constants 0 and 1); they
      are modelled by the integer they denote, and every conversion and
      addition rounds to 53 significant bits, to nearest, ties to even
      ([round_float64]).  The exponent range of binary64 is not modelled: a
      sum would need more than 2^960 records to leave it.
    - The wall-clock duration is real time and is kept symbolic ([Elapsed]);
      the log records of the pass are not modelled.
    - [MustNewConstMetric] panics when the label values do not fit the
      descriptor or are not valid UTF-8, and so does the dereference of a nil
      listing: a pass is a sequence of steps that stops at the first panic
      ([run]), after which the two deferred sends still run and the panic
      leaves [Collect] ([Panics]).
    - Go ranges over a map in an unspecified order: the order in which the
      aggregate is read back is an input of the pass ([RangeOrder]). *)

From Stdlib Require Import ZArith NArith Lia.
From Stdlib Require Import Floats.SpecFloat.
From stdpp Require Import base decidable option list gmap fin_maps strings.

Local Open Scope Z_scope.

(** ** Numbers *)

(** An integer-valued binary64 number, denoted by its integer. *)
Abbreviation float64 := Z.

(** Rounding of an integer to binary64: the 53 leading bits are kept, the
    rest is rounded to nearest, ties to even. *)
Definition round_float64 (z : Z) : float64 :=
  let a := Z.abs z in
  let e := Z.log2 a - 52 in
  if e <=? 0 then z
  else
    let q := a / 2 ^ e in
    let r := a mod 2 ^ e in
    let half := 2 ^ (e - 1) in
    let q' := if r <? half then q
              else if half <? r then q + 1
              else if Z.even q then q else q + 1 in
    Z.sgn z * (q' * 2 ^ e).

(** [float64(n)] for [n : uint64]. *)
Definition float64_of_uint64 (n : N) : float64 := round_float64 (Z.of_N n).

(** [float64(z)] for [z : int64] (and [int], 64 bits wide on the targets of
    the container build). *)
Definition float64_of_int64 (z : Z) : float64 := round_float64 z.

(** [x + y] on float64. *)
Definition fadd (x y : float64) : float64 := round_float64 (x + y).

(** Two's-complement wrap-around of a 64-bit signed integer. *)
Definition wrap_int64 (z : Z) : Z := (z + 2 ^ 63) mod 2 ^ 64 - 2 ^ 63.

(** [a * b] on [int]. *)
Definition int_mul (a b : Z) : Z := wrap_int64 (a * b).

(** The integer denoted by a number of the IEEE 754 specification of the
    Standard Library, when it is an integer; used to compare
    [round_float64] and [fadd] with that specification. *)
Definition Z_of_spec_float (f : spec_float) : option Z :=
  match f with
  | S754_zero _ => Some 0
  | S754_finite s m e =>
      let v := if 0 <=? e then Z.pos m * 2 ^ e else Z.pos m / 2 ^ (- e) in
      Some (if s then - v else v)
  | _ => None
  end.

Definition binary64_of_Z (z : Z) : spec_float := binary_normalize 53 1024 z 0 false.

Definition binary64_add (x y : Z) : spec_float :=
  SFadd 53 1024 (binary64_of_Z x) (binary64_of_Z y).

(** ** Results of the admin API *)

Definition error := string.

Inductive result (A : Type) : Type :=
  | Ok (a : A)
  | Err (e : error).
Arguments Ok {A} a.
Arguments Err {A} e.

Definition failed {A} (r : result A) : Prop :=
  match r with Ok _ => False | Err _ => True end.

#[global] Instance failed_dec {A} (r : result A) : Decision (failed r) :=
  match r with Ok _ => False_dec | Err _ => True_dec end.

(** The response types of go-ceph's [rgw/admin] package, with the fields
    that [Collect] reads. An optional field is a pointer in Go ([nil] when
    the gateway omits it). *)
Module admin.

Record UsageCategory := {
  Category : string;
  BytesSent : N;
  BytesReceived : N;
  Ops : N;
  SuccessfulOps : N;
}.

Record UsageBucket := {
  Bucket : string;
  Categories : list UsageCategory;
}.

Record UsageEntry := {
  User : string;
  Buckets : list UsageBucket;
}.

Record Usage := { Entries : list UsageEntry }.

Record UserStat := {
  Size : option N;
  NumObjects : option N;
}.

Record QuotaSpec := {
  Enabled : option bool;
  MaxSizeKb : option Z;
  MaxObjects : option Z;
}.

Record UserInfo := {
  ID : string;
  BucketQuota : QuotaSpec;
  UserQuota : QuotaSpec;
  Stat : UserStat;
}.

Record RgwMain := {
  SizeActual : option N;
  RgwMain_NumObjects : option N;
}.

Record BucketInfo := {
  BucketInfo_Bucket : string;
  Owner : string;
  Usage_RgwMain : RgwMain;
}.

End admin.

(** The client, as one pass sees it. [GetUsers] returns a pointer to the
    list of identifiers, which is nil ([None]) when the gateway answers
    null. *)
Record Client := {
  GetUsage : result admin.Usage;
  GetUsers : result (option (list string));
  GetUser : string → result admin.UserInfo;
  ListUsersBucketsWithStat : string → result (list admin.BucketInfo);
}.

(** ** The collector *)

(** [usageMetricKey]: unique key for usage metric aggregation. *)
Record usageMetricKey := {
  bucket : string;
  owner : string;
  category : string;
  store_label : string;
}.

(** [usageMetricValues]: aggregated metric values. *)
Record usageMetricValues := {
  ops : float64;
  successfulOps : float64;
  bytesSent : float64;
  bytesReceived : float64;
}.

#[global] Instance usageMetricKey_eq_dec : EqDecision usageMetricKey.
Proof. solve_decision. Defined.

Definition usageMetricKey_to_tuple (k : usageMetricKey) : string * string * string * string :=
  (bucket k, owner k, category k, store_label k).

Definition usageMetricKey_of_tuple (t : string * string * string * string) : usageMetricKey :=
  let '(b, o, c, s) := t in
  {| bucket := b; owner := o; category := c; store_label := s |}.

#[global] Instance usageMetricKey_countable : Countable usageMetricKey :=
  inj_countable' usageMetricKey_to_tuple usageMetricKey_of_tuple
    (λ k, match k with Build_usageMetricKey _ _ _ _ => eq_refl end).

(** The metric descriptors of the collector. *)
Module Desc.
Inductive t :=
  | ops | successfulOps | bytesSent | bytesReceived
  | bucketUsageBytes | bucketUsageObjects
  | userTotalBytes | userTotalObjects
  | userQuotaEnabled | userQuotaMaxSizeBytes | userQuotaMaxObjects
  | userBucketQuotaEnabled | userBucketQuotaMaxSizeBytes | userBucketQuotaMaxObjects
  | scrapeDurationSeconds | up.

#[global] Instance eq_dec : EqDecision t.
Proof. solve_decision. Defined.
End Desc.

(** ** The descriptors, as [NewRADOSGWCollector] builds them *)

Definition bucketLabels : list string := ["bucket"; "owner"; "category"; "store"].

Definition userLabels : list string := ["user"; "store"].

(** The fully-qualified name, the help text and the variable labels given
    to [prometheus.NewDesc] for each descriptor (lines 85-174). *)
Definition fqName (d : Desc.t) : string :=
  match d with
  | Desc.ops => "radosgw_usage_ops_total"
  | Desc.successfulOps => "radosgw_usage_successful_ops_total"
  | Desc.bytesSent => "radosgw_usage_sent_bytes_total"
  | Desc.bytesReceived => "radosgw_usage_received_bytes_total"
  | Desc.bucketUsageBytes => "radosgw_usage_bucket_bytes"
  | Desc.bucketUsageObjects => "radosgw_usage_bucket_objects"
  | Desc.userTotalBytes => "radosgw_usage_user_total_bytes"
  | Desc.userTotalObjects => "radosgw_usage_user_total_objects"
  | Desc.userQuotaEnabled => "radosgw_usage_user_quota_enabled"
  | Desc.userQuotaMaxSizeBytes => "radosgw_usage_user_quota_size_bytes"
  | Desc.userQuotaMaxObjects => "radosgw_usage_user_quota_size_objects"
  | Desc.userBucketQuotaEnabled => "radosgw_usage_user_bucket_quota_enabled"
  | Desc.userBucketQuotaMaxSizeBytes => "radosgw_usage_user_bucket_quota_size_bytes"
  | Desc.userBucketQuotaMaxObjects => "radosgw_usage_user_bucket_quota_size_objects"
  | Desc.scrapeDurationSeconds => "radosgw_usage_scrape_duration_seconds"
  | Desc.up => "radosgw_up"
  end.

Definition help (d : Desc.t) : string :=
  match d with
  | Desc.ops => "Number of operations"
  | Desc.successfulOps => "Number of successful operations"
  | Desc.bytesSent => "Bytes sent by the RADOSGW"
  | Desc.bytesReceived => "Bytes received by the RADOSGW"
  | Desc.bucketUsageBytes => "Bucket used bytes"
  | Desc.bucketUsageObjects => "Number of objects in bucket"
  | Desc.userTotalBytes => "Usage of bytes by user"
  | Desc.userTotalObjects => "Usage of objects by user"
  | Desc.userQuotaEnabled => "User quota enabled"
  | Desc.userQuotaMaxSizeBytes => "Maximum allowed size in bytes for user"
  | Desc.userQuotaMaxObjects => "Maximum allowed number of objects across all user buckets"
  | Desc.userBucketQuotaEnabled => "User per-bucket-quota enabled"
  | Desc.userBucketQuotaMaxSizeBytes => "Maximum allowed size in bytes for each bucket of user"
  | Desc.userBucketQuotaMaxObjects => "Maximum allowed number of objects in each user bucket"
  | Desc.scrapeDurationSeconds => "Amount of time each scrape takes"
  | Desc.up => "Whether the RADOSGW exporter is able to communicate with RADOSGW."
  end.

Definition variableLabels (d : Desc.t) : list string :=
  match d with
  | Desc.ops | Desc.successfulOps | Desc.bytesSent | Desc.bytesReceived
  | Desc.bucketUsageBytes | Desc.bucketUsageObjects => bucketLabels
  | Desc.userTotalBytes | Desc.userTotalObjects
  | Desc.userQuotaEnabled | Desc.userQuotaMaxSizeBytes | Desc.userQuotaMaxObjects
  | Desc.userBucketQuotaEnabled | Desc.userBucketQuotaMaxSizeBytes
  | Desc.userBucketQuotaMaxObjects => userLabels
  | Desc.scrapeDurationSeconds | Desc.up => []
  end.

(** ** Label values

    [utf8.ValidString] of the Go library: whether the bytes of a string are
    well-formed UTF-8 (no overlong form, no surrogate, nothing above
    U+10FFFF). *)

Definition in_range (lo hi b : N) : bool := ((lo <=? b) && (b <=? hi))%N.

Fixpoint valid_utf8 (bs : list N) : bool :=
  match bs with
  | [] => true
  | b :: rest =>
      if (b <? 0x80)%N then valid_utf8 rest
      else if in_range 0xC2 0xDF b then
        match rest with
        | b1 :: rest => in_range 0x80 0xBF b1 && valid_utf8 rest
        | _ => false
        end
      else if in_range 0xE0 0xEF b then
        match rest with
        | b1 :: b2 :: rest =>
            in_range (if (b =? 0xE0)%N then 0xA0 else 0x80)
                     (if (b =? 0xED)%N then 0x9F else 0xBF) b1
            && in_range 0x80 0xBF b2 && valid_utf8 rest
        | _ => false
        end
      else if in_range 0xF0 0xF4 b then
        match rest with
        | b1 :: b2 :: b3 :: rest =>
            in_range (if (b =? 0xF0)%N then 0x90 else 0x80)
                     (if (b =? 0xF4)%N then 0x8F else 0xBF) b1
            && in_range 0x80 0xBF b2 && in_range 0x80 0xBF b3 && valid_utf8 rest
        | _ => false
        end
      else false
  end.

Definition ValidString (s : string) : bool :=
  valid_utf8 (Ascii.N_of_ascii <$> String.list_ascii_of_string s).

Inductive ValueType := CounterValue | GaugeValue.

#[global] Instance ValueType_eq_dec : EqDecision ValueType.
Proof. solve_decision. Defined.

(** The value of a measurement: a number, or the elapsed wall-clock time of
    the pass. *)
Inductive Value :=
  | Num (x : float64)
  | Elapsed.

#[global] Instance Value_eq_dec : EqDecision Value.
Proof. solve_decision. Defined.

(** A constant metric, as sent on the channel. *)
Record Metric := constMetric {
  desc : Desc.t;
  valueType : ValueType;
  value : Value;
  labelValues : list string;
}.

#[global] Instance Metric_eq_dec : EqDecision Metric.
Proof. solve_decision. Defined.

(** [prometheus.MustNewConstMetric]: the metric, or a panic ([None]) when
    the number of label values is not that of the variable labels of the
    descriptor or a label value is not valid UTF-8. The descriptors
    themselves are valid. *)
Definition MustNewConstMetric (d : Desc.t) (vt : ValueType) (v : Value)
    (labels : list string) : option Metric :=
  if decide (length labels = length (variableLabels d)) then
    if forallb ValidString labels then Some (constMetric d vt v labels) else None
  else None.

(** ** Steps and panics *)

(** How a sequence of steps ends. *)
Inductive Status := Returns | Panics.

#[global] Instance Status_eq_dec : EqDecision Status.
Proof. solve_decision. Defined.

(** A step of a pass is a send of a metric on the channel, or a panic
    ([None]). The steps run in order up to the first panic: [run] gives the
    metrics sent and how the sequence ends. *)
Fixpoint run (steps : list (option Metric)) : list Metric * Status :=
  match steps with
  | [] => ([], Returns)
  | Some m :: steps => let '(sent, status) := run steps in (m :: sent, status)
  | None :: _ => ([], Panics)
  end.

Definition sent_by (steps : list (option Metric)) : list Metric := (run steps).1.

Record RADOSGWCollector := {
  client : Client;
  store : string;
}.

(** The order in which [range] visits the entries of the aggregate. *)
Record RangeOrder := {
  range : list (usageMetricKey * usageMetricValues) → list (usageMetricKey * usageMetricValues);
  range_perm : ∀ l, range l ≡ₚ l;
}.

Definition range_in_order : RangeOrder :=
  {| range := λ l, l; range_perm := λ l, Permutation_refl l |}.

Definition range_reversed : RangeOrder :=
  {| range := λ l, reverse l; range_perm := λ l, reverse_Permutation l |}.

(** ** The usage aggregation (the first half of [Collect]) *)

Definition zero_values : usageMetricValues :=
  {| ops := 0; successfulOps := 0; bytesSent := 0; bytesReceived := 0 |}.

(** The four [+=] on the accumulator of a key (lines 248-251 of the
    collector). *)
Definition accumulate (v : usageMetricValues) (cat : admin.UsageCategory) : usageMetricValues :=
  {| ops := fadd (ops v) (float64_of_uint64 (admin.Ops cat));
     successfulOps := fadd (successfulOps v) (float64_of_uint64 (admin.SuccessfulOps cat));
     bytesSent := fadd (bytesSent v) (float64_of_uint64 (admin.BytesSent cat));
     bytesReceived := fadd (bytesReceived v) (float64_of_uint64 (admin.BytesReceived cat)) |}.

(** The body of the innermost loop (lines 244-251): the accumulator of [key]
    is created empty when the key is new, then updated in place through its
    pointer. *)
Definition add_category (usageAggr : gmap usageMetricKey usageMetricValues)
    (key : usageMetricKey) (cat : admin.UsageCategory) : gmap usageMetricKey usageMetricValues :=
  let usageAggr :=
    if decide (is_Some (usageAggr !! key)) then usageAggr
    else <[key := zero_values]> usageAggr in
  alter (λ v, accumulate v cat) key usageAggr.

Definition bucket_root : string := "bucket_root".

(** [bucketName] (lines 233-236): the sentinel replaces an empty bucket
    name. *)
Definition bucketName_of (b : admin.UsageBucket) : string :=
  if decide (admin.Bucket b = "") then bucket_root else admin.Bucket b.

Definition usage_key (store user : string) (b : admin.UsageBucket)
    (cat : admin.UsageCategory) : usageMetricKey :=
  {| bucket := bucketName_of b; owner := user;
     category := admin.Category cat; store_label := store |}.

(** The three nested loops over entries, buckets and categories (lines
    229-254). *)
Definition aggregate_bucket (store user : string)
    (usageAggr : gmap usageMetricKey usageMetricValues) (b : admin.UsageBucket)
    : gmap usageMetricKey usageMetricValues :=
  foldl (λ aggr cat, add_category aggr (usage_key store user b cat) cat)
        usageAggr (admin.Categories b).

Definition aggregate_entry (store : string)
    (usageAggr : gmap usageMetricKey usageMetricValues) (entry : admin.UsageEntry)
    : gmap usageMetricKey usageMetricValues :=
  foldl (aggregate_bucket store (admin.User entry)) usageAggr (admin.Buckets entry).

Definition aggregate (store : string) (entries : list admin.UsageEntry)
    : gmap usageMetricKey usageMetricValues :=
  foldl (aggregate_entry store) ∅ entries.

(** The four sends for one key of the aggregate (lines 257-263), each a
    step that panics when its metric cannot be built. *)
Definition key_labels (key : usageMetricKey) : list string :=
  [bucket key; owner key; category key; store_label key].

Definition emit_usage_key (kv : usageMetricKey * usageMetricValues) : list (option Metric) :=
  let '(key, vals) := kv in
  let labels := key_labels key in
  [ MustNewConstMetric Desc.ops CounterValue (Num (ops vals)) labels;
    MustNewConstMetric Desc.successfulOps CounterValue (Num (successfulOps vals)) labels;
    MustNewConstMetric Desc.bytesSent CounterValue (Num (bytesSent vals)) labels;
    MustNewConstMetric Desc.bytesReceived CounterValue (Num (bytesReceived vals)) labels ].

Definition emit_usage (ro : RangeOrder)
    (usageAggr : gmap usageMetricKey usageMetricValues) : list (option Metric) :=
  range ro (map_to_list usageAggr) ≫= emit_usage_key.

(** ** The walk over the users (the second half of [Collect]) *)

(** A send guarded by [p != nil]: the measurement of the pointed value. *)
Definition emit_if_present {A B} (p : option A) (metric : A → B) : list B :=
  match p with
  | Some x => [metric x]
  | None => []
  end.

Definition float64_of_bool (b : bool) : float64 := if b then 1 else 0.

Definition gauge (d : Desc.t) (labels : list string) (x : float64) : option Metric :=
  MustNewConstMetric d GaugeValue (Num x) labels.

(** User totals, user quota and per-user bucket quota (lines 281-319). *)
Definition user_metrics (store : string) (user : admin.UserInfo) : list (option Metric) :=
  let userLabels := [admin.ID user; store] in
  emit_if_present (admin.NumObjects (admin.Stat user))
    (λ n, gauge Desc.userTotalObjects userLabels (float64_of_uint64 n))
  ++ emit_if_present (admin.Size (admin.Stat user))
    (λ n, gauge Desc.userTotalBytes userLabels (float64_of_uint64 n))
  ++ emit_if_present (admin.Enabled (admin.UserQuota user))
    (λ b, gauge Desc.userQuotaEnabled userLabels (float64_of_bool b))
  ++ emit_if_present (admin.MaxSizeKb (admin.UserQuota user))
    (λ k, gauge Desc.userQuotaMaxSizeBytes userLabels (float64_of_int64 (int_mul k 1024)))
  ++ emit_if_present (admin.MaxObjects (admin.UserQuota user))
    (λ n, gauge Desc.userQuotaMaxObjects userLabels (float64_of_int64 n))
  ++ emit_if_present (admin.Enabled (admin.BucketQuota user))
    (λ b, gauge Desc.userBucketQuotaEnabled userLabels (float64_of_bool b))
  ++ emit_if_present (admin.MaxSizeKb (admin.BucketQuota user))
    (λ k, gauge Desc.userBucketQuotaMaxSizeBytes userLabels (float64_of_int64 (int_mul k 1024)))
  ++ emit_if_present (admin.MaxObjects (admin.BucketQuota user))
    (λ n, gauge Desc.userBucketQuotaMaxObjects userLabels (float64_of_int64 n)).

Definition bucket_total : string := "bucket_total".

(** Bucket stats of one bucket (lines 328-337). *)
Definition bucket_metrics (store : string) (b : admin.BucketInfo) : list (option Metric) :=
  let labels := [admin.BucketInfo_Bucket b; admin.Owner b; bucket_total; store] in
  emit_if_present (admin.RgwMain_NumObjects (admin.Usage_RgwMain b))
    (λ n, gauge Desc.bucketUsageObjects labels (float64_of_uint64 n))
  ++ emit_if_present (admin.SizeActual (admin.Usage_RgwMain b))
    (λ n, gauge Desc.bucketUsageBytes labels (float64_of_uint64 n)).

(** The steps of one iteration of the loop over the user identifiers (lines
    274-339); each [continue] ends the iteration after the steps so far. *)
Definition collect_user (c : RADOSGWCollector) (uid : string) : list (option Metric) :=
  match GetUser (client c) uid with
  | Err _ => []
  | Ok user =>
      user_metrics (store c) user ++
      match ListUsersBucketsWithStat (client c) uid with
      | Err _ => []
      | Ok buckets => buckets ≫= bucket_metrics (store c)
      end
  end.

Definition collect_users (c : RADOSGWCollector) (uids : list string) : list (option Metric) :=
  uids ≫= collect_user c.

(** ** [Collect] *)

(** The two deferred sends (lines 201-212), in the order in which they run
    when [Collect] returns or panics, last deferred first: the health
    measurement, then the duration. Neither has a label value. *)
Definition deferred_sends (up : float64) : list (option Metric) :=
  [ MustNewConstMetric Desc.up GaugeValue (Num up) [];
    MustNewConstMetric Desc.scrapeDurationSeconds GaugeValue Elapsed [] ].

Definition deferred (up : float64) : list Metric := sent_by (deferred_sends up).

(** The body of [Collect] (lines 214-339): its steps in order, and the
    value of [up] when the body returns. [up] is 1 until it is set to 0 right
    before one of the two early returns; the listing is dereferenced at line
    274, a panic when it is nil. *)
Definition Collect_body (c : RADOSGWCollector) (ro : RangeOrder)
    : list (option Metric) * float64 :=
  match GetUsage (client c) with
  | Err _ => ([], 0)
  | Ok usage =>
      let usageAggr := aggregate (store c) (admin.Entries usage) in
      let sent := emit_usage ro usageAggr in
      match GetUsers (client c) with
      | Err _ => (sent, 0)
      | Ok None => (sent ++ [None], 1)
      | Ok (Some uids) => (sent ++ collect_users c uids, 1)
      end
  end.

(** One call of [Collect] (lines 199-340): the measurements sent on the
    channel, in order, and whether the call returns or panics. The steps of
    the body run up to the first panic; then the deferred sends run, with
    [up] as it is at that point (still 1 when a step panicked). *)
Definition Collect_run (c : RADOSGWCollector) (ro : RangeOrder) : list Metric * Status :=
  let '(steps, up) := Collect_body c ro in
  let '(sent, status) := run steps in
  (sent ++ deferred (match status with Returns => up | Panics => 1 end), status).

Definition Collect (c : RADOSGWCollector) (ro : RangeOrder) : list Metric :=
  (Collect_run c ro).1.

Definition Collect_status (c : RADOSGWCollector) (ro : RangeOrder) : Status :=
  (Collect_run c ro).2.

(** ** Quantities that the properties speak of *)

(** The four usage counters. *)
Inductive Counter := Ops | SuccessfulOps | BytesSent | BytesReceived.

Definition category_counter (c : Counter) (cat : admin.UsageCategory) : N :=
  match c with
  | Ops => admin.Ops cat
  | SuccessfulOps => admin.SuccessfulOps cat
  | BytesSent => admin.BytesSent cat
  | BytesReceived => admin.BytesReceived cat
  end.

Definition values_counter (c : Counter) (v : usageMetricValues) : float64 :=
  match c with
  | Ops => ops v
  | SuccessfulOps => successfulOps v
  | BytesSent => bytesSent v
  | BytesReceived => bytesReceived v
  end.

Definition counter_desc (c : Counter) : Desc.t :=
  match c with
  | Ops => Desc.ops
  | SuccessfulOps => Desc.successfulOps
  | BytesSent => Desc.bytesSent
  | BytesReceived => Desc.bytesReceived
  end.

(** The per-category records of the input, in input order, each with the
    key under which the aggregation files it. *)
Definition usage_records (store : string) (entries : list admin.UsageEntry)
    : list (usageMetricKey * admin.UsageCategory) :=
  entry ← entries;
  b ← admin.Buckets entry;
  cat ← admin.Categories b;
  [(usage_key store (admin.User entry) b cat, cat)].

(** One step of the aggregation, on a record. *)
Definition add_record (m : gmap usageMetricKey usageMetricValues)
    (r : usageMetricKey * admin.UsageCategory) : gmap usageMetricKey usageMetricValues :=
  add_category m r.1 r.2.

(** The records of the input that carry a given key. *)
Definition group (key : usageMetricKey) (recs : list (usageMetricKey * admin.UsageCategory))
    : list (usageMetricKey * admin.UsageCategory) :=
  filter (λ r, r.1 = key) recs.

(** The accumulator that the records of one key build up, in input order
    ([None] when there is no record). *)
Definition accumulate_group (recs : list (usageMetricKey * admin.UsageCategory))
    : option usageMetricValues :=
  foldl (λ o r, Some (accumulate (default zero_values o) r.2)) None recs.

(** The exact sum of a counter over input records. *)
Definition input_total (c : Counter) (recs : list (usageMetricKey * admin.UsageCategory)) : Z :=
  foldr (λ r acc, Z.of_N (category_counter c r.2) + acc) 0 recs.

(** The value of a counter under a key of the aggregate (0 for a key that
    is not there), and the sum of a counter over all entries of the
    aggregate. *)
Definition aggregate_at (c : Counter) (m : gmap usageMetricKey usageMetricValues)
    (key : usageMetricKey) : Z :=
  values_counter c (default zero_values (m !! key)).

Definition aggregate_total (c : Counter) (m : gmap usageMetricKey usageMetricValues) : Z :=
  map_fold (λ _ v acc, values_counter c v + acc) 0 m.

(** The four usage measurements of one key of the aggregate, as the sends
    of [emit_usage_key] build them when they do not panic. *)
Definition usage_metrics (kv : usageMetricKey * usageMetricValues) : list Metric :=
  let '(key, vals) := kv in
  let labels := key_labels key in
  [ constMetric Desc.ops CounterValue (Num (ops vals)) labels;
    constMetric Desc.successfulOps CounterValue (Num (successfulOps vals)) labels;
    constMetric Desc.bytesSent CounterValue (Num (bytesSent vals)) labels;
    constMetric Desc.bytesReceived CounterValue (Num (bytesReceived vals)) labels ].

(** The label values of every key of the aggregate (bucket, owner, category
    and store) are valid UTF-8: no usage send panics. *)
Definition usage_labels_valid (c : RADOSGWCollector) (usage : admin.Usage) : Prop :=
  ∀ key, key ∈ dom (aggregate (store c) (admin.Entries usage)) →
         forallb ValidString (key_labels key) = true.

(** The pass gets as far as asking for the listing of the users: the usage
    query has succeeded and no usage send has panicked. *)
Definition listing_asked (c : RADOSGWCollector) : Prop :=
  ∃ usage, GetUsage (client c) = Ok usage ∧ usage_labels_valid c usage.

(** All the usage measurements of the aggregate, in the order of the
    range. *)
Definition usage_measurements (ro : RangeOrder)
    (usageAggr : gmap usageMetricKey usageMetricValues) : list Metric :=
  range ro (map_to_list usageAggr) ≫= usage_metrics.

(** The measurements of a user record and of a bucket record, as the sends
    of [user_metrics] and [bucket_metrics] build them when they do not
    panic. *)
Definition const_gauge (d : Desc.t) (labels : list string) (x : float64) : Metric :=
  constMetric d GaugeValue (Num x) labels.

Definition user_measurements (store : string) (user : admin.UserInfo) : list Metric :=
  let userLabels := [admin.ID user; store] in
  emit_if_present (admin.NumObjects (admin.Stat user))
    (λ n, const_gauge Desc.userTotalObjects userLabels (float64_of_uint64 n))
  ++ emit_if_present (admin.Size (admin.Stat user))
    (λ n, const_gauge Desc.userTotalBytes userLabels (float64_of_uint64 n))
  ++ emit_if_present (admin.Enabled (admin.UserQuota user))
    (λ b, const_gauge Desc.userQuotaEnabled userLabels (float64_of_bool b))
  ++ emit_if_present (admin.MaxSizeKb (admin.UserQuota user))
    (λ k, const_gauge Desc.userQuotaMaxSizeBytes userLabels (float64_of_int64 (int_mul k 1024)))
  ++ emit_if_present (admin.MaxObjects (admin.UserQuota user))
    (λ n, const_gauge Desc.userQuotaMaxObjects userLabels (float64_of_int64 n))
  ++ emit_if_present (admin.Enabled (admin.BucketQuota user))
    (λ b, const_gauge Desc.userBucketQuotaEnabled userLabels (float64_of_bool b))
  ++ emit_if_present (admin.MaxSizeKb (admin.BucketQuota user))
    (λ k, const_gauge Desc.userBucketQuotaMaxSizeBytes userLabels
            (float64_of_int64 (int_mul k 1024)))
  ++ emit_if_present (admin.MaxObjects (admin.BucketQuota user))
    (λ n, const_gauge Desc.userBucketQuotaMaxObjects userLabels (float64_of_int64 n)).

Definition bucket_measurements (store : string) (b : admin.BucketInfo) : list Metric :=
  let labels := [admin.BucketInfo_Bucket b; admin.Owner b; bucket_total; store] in
  emit_if_present (admin.RgwMain_NumObjects (admin.Usage_RgwMain b))
    (λ n, const_gauge Desc.bucketUsageObjects labels (float64_of_uint64 n))
  ++ emit_if_present (admin.SizeActual (admin.Usage_RgwMain b))
    (λ n, const_gauge Desc.bucketUsageBytes labels (float64_of_uint64 n)).

(** The step that builds a given metric: it panics when the label values of
    the metric do not pass the checks of [MustNewConstMetric]. *)
Definition attempt (m : Metric) : option Metric :=
  MustNewConstMetric (desc m) (valueType m) (value m) (labelValues m).

(** The descriptors by the part of the pass that sends them. *)
Definition is_usage_desc (d : Desc.t) : bool :=
  match d with
  | Desc.ops | Desc.successfulOps | Desc.bytesSent | Desc.bytesReceived => true
  | _ => false
  end.

Definition is_meta_desc (d : Desc.t) : bool :=
  match d with
  | Desc.scrapeDurationSeconds | Desc.up => true
  | _ => false
  end.

Definition is_entity_desc (d : Desc.t) : bool :=
  negb (is_usage_desc d) && negb (is_meta_desc d).

(** The measurements of a given descriptor among those sent. *)
Definition sent_of (d : Desc.t) (ms : list Metric) : list Metric :=
  filter (λ m, desc m = d) ms.


(** The values of the health measurement among those sent. *)
Definition health (ms : list Metric) : list Value :=
  value <$> sent_of Desc.up ms.

(** The optional numeric fields of a user record, with the descriptor of
    each, the upstream value (a flag counts as 0 or 1) and whether the field
    is a size in kibibytes. *)
Inductive UserField :=
  | StatNumObjects | StatSize
  | UserQuotaEnabled | UserQuotaMaxSizeKb | UserQuotaMaxObjects
  | BucketQuotaEnabled | BucketQuotaMaxSizeKb | BucketQuotaMaxObjects.

Definition user_field_desc (f : UserField) : Desc.t :=
  match f with
  | StatNumObjects => Desc.userTotalObjects
  | StatSize => Desc.userTotalBytes
  | UserQuotaEnabled => Desc.userQuotaEnabled
  | UserQuotaMaxSizeKb => Desc.userQuotaMaxSizeBytes
  | UserQuotaMaxObjects => Desc.userQuotaMaxObjects
  | BucketQuotaEnabled => Desc.userBucketQuotaEnabled
  | BucketQuotaMaxSizeKb => Desc.userBucketQuotaMaxSizeBytes
  | BucketQuotaMaxObjects => Desc.userBucketQuotaMaxObjects
  end.

Definition Z_of_bool (b : bool) : Z := if b then 1 else 0.

Definition user_field (f : UserField) (user : admin.UserInfo) : option Z :=
  match f with
  | StatNumObjects => Z.of_N <$> admin.NumObjects (admin.Stat user)
  | StatSize => Z.of_N <$> admin.Size (admin.Stat user)
  | UserQuotaEnabled => Z_of_bool <$> admin.Enabled (admin.UserQuota user)
  | UserQuotaMaxSizeKb => admin.MaxSizeKb (admin.UserQuota user)
  | UserQuotaMaxObjects => admin.MaxObjects (admin.UserQuota user)
  | BucketQuotaEnabled => Z_of_bool <$> admin.Enabled (admin.BucketQuota user)
  | BucketQuotaMaxSizeKb => admin.MaxSizeKb (admin.BucketQuota user)
  | BucketQuotaMaxObjects => admin.MaxObjects (admin.BucketQuota user)
  end.

Definition is_size_kb (f : UserField) : bool :=
  match f with
  | UserQuotaMaxSizeKb | BucketQuotaMaxSizeKb => true
  | _ => false
  end.

(** The number sent for a field with upstream value [x]. *)
Definition user_field_sent (f : UserField) (x : Z) : float64 :=
  if is_size_kb f then float64_of_int64 (int_mul x 1024) else round_float64 x.

(** The optional numeric fields of a bucket record. *)
Inductive BucketField := MainNumObjects | MainSizeActual.

Definition bucket_field_desc (f : BucketField) : Desc.t :=
  match f with
  | MainNumObjects => Desc.bucketUsageObjects
  | MainSizeActual => Desc.bucketUsageBytes
  end.

Definition bucket_field (f : BucketField) (b : admin.BucketInfo) : option Z :=
  match f with
  | MainNumObjects => Z.of_N <$> admin.RgwMain_NumObjects (admin.Usage_RgwMain b)
  | MainSizeActual => Z.of_N <$> admin.SizeActual (admin.Usage_RgwMain b)
  end.

(** Two collectors that differ at most in what the queries about user
    [uid] return. *)
Definition same_except_user (uid : string) (c c' : RADOSGWCollector) : Prop :=
  store c = store c'
  ∧ GetUsage (client c) = GetUsage (client c')
  ∧ GetUsers (client c) = GetUsers (client c')
  ∧ ∀ u, u ≠ uid →
      GetUser (client c) u = GetUser (client c') u
      ∧ ListUsersBucketsWithStat (client c) u = ListUsersBucketsWithStat (client c') u.

(** ** Sample inputs *)

Module Sample.

Definition store_name : string := "us-east-1".

Definition get_obj (ops bytes_sent : N) : admin.UsageCategory :=
  {| admin.Category := "get_obj"; admin.BytesSent := bytes_sent;
     admin.BytesReceived := 0; admin.Ops := ops; admin.SuccessfulOps := ops |}.

Definition entry (user bucket : string) (cats : list admin.UsageCategory)
    : admin.UsageEntry :=
  {| admin.User := user;
     admin.Buckets := [ {| admin.Bucket := bucket; admin.Categories := cats |} ] |}.

(** Two entries for the same user, bucket and category. *)
Definition photos : list admin.UsageEntry :=
  [ entry "alice" "photos" [get_obj 3 100]; entry "alice" "photos" [get_obj 5 200] ].

Definition photos_key : usageMetricKey :=
  {| bucket := "photos"; owner := "alice"; category := "get_obj"; store_label := store_name |}.

(** An account-level entry: the bucket name is empty. *)
Definition account_level : list admin.UsageEntry :=
  [ entry "bob" "" [get_obj 0 0] ].

(** One record with 2^53 + 1 operations. *)
Definition huge : list admin.UsageEntry :=
  [ entry "alice" "photos" [get_obj 9007199254740993 0] ].

(** Two records of one key, with 2^53 + 2 and 3 operations. *)
Definition uneven : list admin.UsageEntry :=
  [ entry "alice" "photos" [get_obj 9007199254740994 0; get_obj 3 0] ].

(** A user with totals, a user quota of 10 KiB and no limit on objects. *)
Definition alice : admin.UserInfo :=
  {| admin.ID := "alice";
     admin.BucketQuota :=
       {| admin.Enabled := Some false; admin.MaxSizeKb := None;
          admin.MaxObjects := Some (-1) |};
     admin.UserQuota :=
       {| admin.Enabled := Some true; admin.MaxSizeKb := Some 10;
          admin.MaxObjects := None |};
     admin.Stat := {| admin.Size := Some 4096%N; admin.NumObjects := Some 0%N |} |}.

(** A bucket whose number of objects is not known. *)
Definition photos_bucket : admin.BucketInfo :=
  {| admin.BucketInfo_Bucket := "photos"; admin.Owner := "alice";
     admin.Usage_RgwMain :=
       {| admin.SizeActual := Some 4096%N; admin.RgwMain_NumObjects := None |} |}.

Definition alice_buckets : list admin.BucketInfo := [photos_bucket].

Definition carol : admin.UserInfo :=
  {| admin.ID := "carol";
     admin.BucketQuota :=
       {| admin.Enabled := None; admin.MaxSizeKb := None; admin.MaxObjects := None |};
     admin.UserQuota :=
       {| admin.Enabled := None; admin.MaxSizeKb := None; admin.MaxObjects := None |};
     admin.Stat := {| admin.Size := None; admin.NumObjects := Some 7%N |} |}.

(** A user whose quota is 2^53 KiB. *)
Definition dave : admin.UserInfo :=
  {| admin.ID := "dave";
     admin.BucketQuota :=
       {| admin.Enabled := None; admin.MaxSizeKb := None; admin.MaxObjects := None |};
     admin.UserQuota :=
       {| admin.Enabled := None; admin.MaxSizeKb := Some 9007199254740992;
          admin.MaxObjects := None |};
     admin.Stat := {| admin.Size := None; admin.NumObjects := None |} |}.

(** The gateway answers every query, except the detail of "bob" and the
    bucket list of "carol". *)
Definition gateway : Client :=
  {| GetUsage := Ok {| admin.Entries := photos |};
     GetUsers := Ok (Some ["alice"; "bob"; "carol"]);
     GetUser := λ uid,
       if String.eqb uid "alice" then Ok alice
       else if String.eqb uid "carol" then Ok carol
       else Err "NoSuchUser";
     ListUsersBucketsWithStat := λ uid,
       if String.eqb uid "alice" then Ok alice_buckets
       else Err "NoSuchUser" |}.

Definition bob : admin.UserInfo :=
  {| admin.ID := "bob";
     admin.BucketQuota :=
       {| admin.Enabled := None; admin.MaxSizeKb := None; admin.MaxObjects := None |};
     admin.UserQuota :=
       {| admin.Enabled := None; admin.MaxSizeKb := None; admin.MaxObjects := None |};
     admin.Stat := {| admin.Size := Some 1%N; admin.NumObjects := Some 1%N |} |}.

(** The same gateway when "bob" can be fetched. *)
Definition gateway_with_bob : Client :=
  {| GetUsage := GetUsage gateway;
     GetUsers := GetUsers gateway;
     GetUser := λ uid, if String.eqb uid "bob" then Ok bob else GetUser gateway uid;
     ListUsersBucketsWithStat := λ uid,
       if String.eqb uid "bob" then Ok [] else ListUsersBucketsWithStat gateway uid |}.

(** The same gateway when the usage query fails, and when the listing of
    the users fails. *)
Definition usage_down : Client :=
  {| GetUsage := Err "timeout";
     GetUsers := GetUsers gateway;
     GetUser := GetUser gateway;
     ListUsersBucketsWithStat := ListUsersBucketsWithStat gateway |}.

Definition listing_down : Client :=
  {| GetUsage := GetUsage gateway;
     GetUsers := Err "timeout";
     GetUser := GetUser gateway;
     ListUsersBucketsWithStat := ListUsersBucketsWithStat gateway |}.

(** A store label that is not valid UTF-8: the single byte 255. *)
Definition broken_store : string := String (Ascii.ascii_of_N 255) EmptyString.

Definition broken_collector (cl : Client) : RADOSGWCollector :=
  {| client := cl; store := broken_store |}.

Definition collector (cl : Client) : RADOSGWCollector :=
  {| client := cl; store := store_name |}.

End Sample.

(** ** The constructor and [Describe] *)

(** [NewRADOSGWCollector] (lines 60-176): the admin API constructor of
    go-ceph is a parameter; the collector is built around the client it
    returns, and its failure makes the constructor panic ([None]). *)
Definition NewRADOSGWCollector
    (admin_New : string → string → string → bool → result Client)
    (endpoint accessKey secretKey store : string) (insecure : bool)
    : option RADOSGWCollector :=
  match admin_New endpoint accessKey secretKey insecure with
  | Err _ => None
  | Ok cl => Some {| client := cl; store := store |}
  end.

(** [Describe] (lines 179-196): the descriptors sent on the channel, in
    order. *)
Definition Describe : list Desc.t :=
  [ Desc.ops; Desc.successfulOps; Desc.bytesSent; Desc.bytesReceived;
    Desc.bucketUsageBytes; Desc.bucketUsageObjects;
    Desc.userTotalBytes; Desc.userTotalObjects;
    Desc.userQuotaEnabled; Desc.userQuotaMaxSizeBytes; Desc.userQuotaMaxObjects;
    Desc.userBucketQuotaEnabled; Desc.userBucketQuotaMaxSizeBytes;
    Desc.userBucketQuotaMaxObjects;
    Desc.scrapeDurationSeconds; Desc.up ].

(** What identifies a measurement to the registry: its descriptor and its
    label values. *)
Definition identity (m : Metric) : Desc.t * list string := (desc m, labelValues m).

(** The usage measurements among those sent. *)
Definition usage_sent (ms : list Metric) : list Metric :=
  filter (λ m, is_usage_desc (desc m) = true) ms.

(** ** Process start-up ([main.go]) *)

(** [os.Getenv] on the environment of the process: the value of the
    variable, empty when the variable is not set. *)
Definition Getenv (env : gmap string string) (key : string) : string :=
  default "" (env !! key).

(** [getEnv] (lines 17-22). *)
Definition getEnv (env : gmap string string) (key fallback : string) : string :=
  let value := Getenv env key in
  if decide (value ≠ "") then value else fallback.

(** [strconv.ParseBool] of the Go library: the value and whether the string
    was accepted. *)
Definition ParseBool (str : string) : bool * bool :=
  if decide (str ∈ ["1"; "t"; "T"; "true"; "TRUE"; "True"]) then (true, true)
  else if decide (str ∈ ["0"; "f"; "F"; "false"; "FALSE"; "False"]) then (false, true)
  else (false, false).

Module main.

(** The configuration that [main] loads from the environment (lines
    32-42). *)
Record Config := {
  endpoint : string;
  accessKey : string;
  secretKey : string;
  store : string;
  port : string;
  insecure : bool;
}.

(** The loading of the configuration; [None] when [main] exits with status
    1 because a required variable is missing. *)
Definition config (env : gmap string string) : option Config :=
  let endpoint := getEnv env "RADOSGW_ENDPOINT" "" in
  let accessKey := getEnv env "ACCESS_KEY" "" in
  let secretKey := getEnv env "SECRET_KEY" "" in
  if decide (endpoint = "" ∨ accessKey = "" ∨ secretKey = "") then None
  else
    let store := getEnv env "STORE" "us-east-1" in
    let port := getEnv env "METRICS_PORT" "9242" in
    let insecure := (ParseBool (getEnv env "INSECURE_SKIP_VERIFY" "false")).1 in
    Some {| endpoint := endpoint; accessKey := accessKey; secretKey := secretKey;
            store := store; port := port; insecure := insecure |}.

(** The outcome of [main] up to the start of the server. *)
Inductive Startup :=
  | Exit (code : Z)
  | Panic
  | Serving (collector : RADOSGWCollector) (Addr : string).

(** [main] (lines 24-52) up to the construction of the server: the
    configuration, the collector, the listening address. The registration
    of the collector, the server and the handling of signals are not
    modelled. *)
Definition start (admin_New : string → string → string → bool → result Client)
    (env : gmap string string) : Startup :=
  match config env with
  | None => Exit 1
  | Some cfg =>
      match NewRADOSGWCollector admin_New (endpoint cfg) (accessKey cfg) (secretKey cfg)
              (store cfg) (insecure cfg) with
      | None => Panic
      | Some collector => Serving collector (":" +:+ port cfg)
      end
  end.

End main.

(** A variable that is not set, or set to the empty string. *)
Definition unset_or_empty (env : gmap string string) (key : string) : Prop :=
  env !! key = None ∨ env !! key = Some "".

(** The spellings that [strconv.ParseBool] reads as true. *)
Definition true_spellings : list string := ["1"; "t"; "T"; "true"; "TRUE"; "True"].

(** ** More sample inputs *)

Module Deployment.

(** An environment with the required variables, a store and a request to
    skip the verification of certificates. *)
Definition env : gmap string string :=
  list_to_map
    [ ("RADOSGW_ENDPOINT", "https://ceph-gw.example.com");
      ("ACCESS_KEY", "AK"); ("SECRET_KEY", "SK");
      ("STORE", "prod-cluster"); ("METRICS_PORT", "");
      ("INSECURE_SKIP_VERIFY", "TRUE") ].

(** The same environment without the secret key. *)
Definition env_without_secret : gmap string string := delete "SECRET_KEY" env.

(** An admin API constructor that always succeeds. *)
Definition admin_New (endpoint accessKey secretKey : string) (insecure : bool)
    : result Client :=
  Ok Sample.gateway.

(** A gateway that lists one user, whose detail cannot be fetched. *)
Definition gateway_of_bob : Client :=
  {| GetUsage := GetUsage Sample.gateway;
     GetUsers := Ok (Some ["bob"]);
     GetUser := GetUser Sample.gateway;
     ListUsersBucketsWithStat := ListUsersBucketsWithStat Sample.gateway |}.

End Deployment.

(** * Properties *)

(** ** Rounding *)

Lemma round_float64_exact z : Z.abs z ≤ 2 ^ 53 → round_float64 z = z.
Proof.
  intros Hz. unfold round_float64.
  destruct (decide (Z.abs z = 2 ^ 53)) as [Heq | Hne].
  - assert (z = 2 ^ 53 ∨ z = - 2 ^ 53) as [-> | ->] by lia; vm_compute; reflexivity.
  - assert (Z.log2 (Z.abs z) - 52 ≤ 0) as He.
    { destruct (decide (Z.abs z = 0)) as [-> | Hnz]; [done |].
      assert (Z.log2 (Z.abs z) < 53); [| lia].
      apply Z.log2_lt_pow2; lia. }
    apply Z.leb_le in He. by rewrite He.
Qed.

Lemma float64_of_uint64_exact n :
  Z.of_N n ≤ 2 ^ 53 → float64_of_uint64 n = Z.of_N n.
Proof. intros. apply round_float64_exact. lia. Qed.

Lemma fadd_exact x y : 0 ≤ x → 0 ≤ y → x + y ≤ 2 ^ 53 → fadd x y = x + y.
Proof. intros. apply round_float64_exact. lia. Qed.

(** ** The aggregation as one loop over the records *)

Lemma add_category_insert m key cat :
  add_category m key cat = <[key := accumulate (default zero_values (m !! key)) cat]> m.
Proof.
  unfold add_category. apply map_eq. intros i.
  destruct (decide (key = i)) as [<- | Hne].
  - rewrite lookup_insert_eq. case_decide as Hk.
    + destruct Hk as [v Hv]. by rewrite lookup_alter_eq, Hv.
    + rewrite lookup_alter_eq, lookup_insert_eq.
      by rewrite (proj2 (eq_None_not_Some _) Hk).
  - rewrite lookup_insert_ne by done. rewrite lookup_alter_ne by done.
    case_decide; [done |]. by rewrite lookup_insert_ne.
Qed.

Lemma aggregate_bucket_records store user m b :
  aggregate_bucket store user m b =
  foldl add_record m ((λ cat, (usage_key store user b cat, cat)) <$> admin.Categories b).
Proof.
  unfold aggregate_bucket. revert m.
  induction (admin.Categories b) as [| cat cats IH]; intros m; [done |].
  simpl. apply IH.
Qed.

Lemma aggregate_entry_records store m entry :
  aggregate_entry store m entry = foldl add_record m (usage_records store [entry]).
Proof.
  unfold aggregate_entry, usage_records. simpl. rewrite app_nil_r. revert m.
  induction (admin.Buckets entry) as [| b bs IH]; intros m; [done |].
  simpl. rewrite foldl_app, IH. f_equal.
  rewrite aggregate_bucket_records. f_equal.
Qed.

Lemma usage_records_cons store entry entries :
  usage_records store (entry :: entries) =
  usage_records store [entry] ++ usage_records store entries.
Proof. unfold usage_records. simpl. by rewrite app_nil_r. Qed.

Lemma usage_records_app store entries1 entries2 :
  usage_records store (entries1 ++ entries2) =
  usage_records store entries1 ++ usage_records store entries2.
Proof. unfold usage_records. by rewrite bind_app. Qed.

Lemma foldl_aggregate_entry store m entries :
  foldl (aggregate_entry store) m entries = foldl add_record m (usage_records store entries).
Proof.
  revert m. induction entries as [| entry entries IH]; intros m; [done |].
  rewrite usage_records_cons, foldl_app.
  change (foldl (aggregate_entry store) m (entry :: entries))
    with (foldl (aggregate_entry store) (aggregate_entry store m entry) entries).
  rewrite IH. f_equal. apply aggregate_entry_records.
Qed.

Lemma aggregate_records store entries :
  aggregate store entries = foldl add_record ∅ (usage_records store entries).
Proof. unfold aggregate. by rewrite foldl_aggregate_entry. Qed.

(** ** Counters of the aggregate against exact sums over the input *)

Section CounterSums.

Context (c : Counter).

Lemma values_counter_zero : values_counter c zero_values = 0.
Proof. by destruct c. Qed.

Lemma values_counter_accumulate v cat :
  values_counter c (accumulate v cat) =
  fadd (values_counter c v) (float64_of_uint64 (category_counter c cat)).
Proof. by destruct c. Qed.

Lemma input_total_app recs1 recs2 :
  input_total c (recs1 ++ recs2) = input_total c recs1 + input_total c recs2.
Proof.
  unfold input_total. induction recs1 as [| r recs1 IH]; simpl; [done |].
  rewrite IH. lia.
Qed.

Lemma input_total_nonneg recs : 0 ≤ input_total c recs.
Proof.
  unfold input_total. induction recs as [| r recs IH]; simpl; lia.
Qed.

Lemma group_app key recs1 recs2 :
  group key (recs1 ++ recs2) = group key recs1 ++ group key recs2.
Proof. apply filter_app. Qed.

Lemma group_singleton key r :
  group key [r] = if decide (r.1 = key) then [r] else [].
Proof. unfold group. rewrite filter_cons, filter_nil. by case_decide. Qed.

Lemma input_total_singleton r :
  input_total c [r] = Z.of_N (category_counter c r.2).
Proof. unfold input_total. simpl. lia. Qed.

Lemma input_group_total_snoc key recs r :
  input_total c (group key (recs ++ [r])) =
  input_total c (group key recs)
  + (if decide (r.1 = key) then Z.of_N (category_counter c r.2) else 0).
Proof.
  rewrite group_app, input_total_app, group_singleton.
  case_decide; [by rewrite input_total_singleton | done].
Qed.

Lemma lookup_add_record m r key :
  add_record m r !! key =
  if decide (r.1 = key) then Some (accumulate (default zero_values (m !! r.1)) r.2)
  else m !! key.
Proof.
  unfold add_record. rewrite add_category_insert.
  case_decide as Hk; [subst; apply lookup_insert_eq | by apply lookup_insert_ne].
Qed.

Lemma aggregate_at_add_record m r key :
  aggregate_at c (add_record m r) key =
  if decide (r.1 = key)
  then fadd (aggregate_at c m key) (float64_of_uint64 (category_counter c r.2))
  else aggregate_at c m key.
Proof.
  unfold aggregate_at. rewrite lookup_add_record.
  case_decide as Hk; [| done]. subst. simpl. apply values_counter_accumulate.
Qed.

(** A key is in the aggregate exactly when a record of the input has it. *)
Lemma lookup_foldl_add_record_is_Some m recs key :
  is_Some (foldl add_record m recs !! key) ↔ is_Some (m !! key) ∨ key ∈ recs.*1.
Proof.
  revert m. induction recs as [| r recs IH]; intros m; simpl.
  - rewrite elem_of_nil. tauto.
  - rewrite IH, lookup_add_record, elem_of_cons.
    case_decide as Hk; subst; split; intros H.
    + auto.
    + left. eauto.
    + destruct H as [H | H]; auto.
    + destruct H as [H | [H | H]]; auto. congruence.
Qed.

Lemma aggregate_lookup_is_Some store entries key :
  is_Some (aggregate store entries !! key) ↔ key ∈ (usage_records store entries).*1.
Proof.
  rewrite aggregate_records, lookup_foldl_add_record_is_Some, lookup_empty.
  split; [intros [[? ?] | ?]; done | auto].
Qed.

Lemma group_nil_iff key recs : group key recs = [] ↔ key ∉ recs.*1.
Proof.
  unfold group. induction recs as [| r recs IH]; simpl.
  - rewrite elem_of_nil. tauto.
  - rewrite filter_cons, elem_of_cons. case_decide as Hk.
    + split; [done | intros H; exfalso; apply H; auto].
    + rewrite IH. split; [intros H [? | ?]; [by destruct Hk | done] | intros H ?; apply H; auto].
Qed.

(** As long as the exact sum of a counter over each group of records stays
    within 2^53, every rounding is exact and the accumulator of a key holds
    the exact sum of its group. *)
Lemma aggregate_at_foldl_exact recs :
  (∀ key, input_total c (group key recs) ≤ 2 ^ 53) →
  ∀ key, aggregate_at c (foldl add_record ∅ recs) key = input_total c (group key recs).
Proof.
  induction recs as [| r recs IH] using rev_ind; intros Hbound key.
  - unfold aggregate_at. simpl. rewrite lookup_empty. apply values_counter_zero.
  - assert (∀ key, input_total c (group key recs) ≤ 2 ^ 53) as Hrecs.
    { intros k. specialize (Hbound k). rewrite input_group_total_snoc in Hbound.
      case_decide; lia. }
    specialize (IH Hrecs).
    rewrite foldl_app. simpl. rewrite aggregate_at_add_record, input_group_total_snoc.
    specialize (Hbound key). rewrite input_group_total_snoc in Hbound.
    case_decide as Hk; rewrite IH; [| lia].
    pose proof (input_total_nonneg (group key recs)).
    rewrite float64_of_uint64_exact by lia.
    apply fadd_exact; lia.
Qed.

Lemma aggregate_total_insert (m : gmap usageMetricKey usageMetricValues) key v :
  aggregate_total c (<[key := v]> m) =
  aggregate_total c m - aggregate_at c m key + values_counter c v.
Proof.
  unfold aggregate_total, aggregate_at.
  destruct (m !! key) as [v0 |] eqn:Hkey; simpl.
  - rewrite <- insert_delete_eq.
    rewrite map_fold_insert_L; [| intros; lia | apply lookup_delete_eq].
    rewrite (map_fold_delete_L _ _ key v0 m); [lia | intros; lia | done].
  - rewrite map_fold_insert_L; [| intros; lia | done].
    rewrite values_counter_zero. lia.
Qed.

Lemma aggregate_total_add_record m r :
  aggregate_total c (add_record m r) =
  aggregate_total c m - aggregate_at c m r.1 + aggregate_at c (add_record m r) r.1.
Proof.
  unfold add_record at 1. rewrite add_category_insert, aggregate_total_insert.
  f_equal. unfold aggregate_at. rewrite lookup_add_record.
  by case_decide.
Qed.

Lemma aggregate_total_foldl_exact recs :
  (∀ key, input_total c (group key recs) ≤ 2 ^ 53) →
  aggregate_total c (foldl add_record ∅ recs) = input_total c recs.
Proof.
  induction recs as [| r recs IH] using rev_ind; intros Hbound.
  - unfold aggregate_total. simpl. apply map_fold_empty.
  - assert (∀ key, input_total c (group key recs) ≤ 2 ^ 53) as Hrecs.
    { intros k. specialize (Hbound k). rewrite input_group_total_snoc in Hbound.
      case_decide; lia. }
    pose proof (aggregate_at_foldl_exact _ Hbound r.1) as Hnew.
    pose proof (aggregate_at_foldl_exact _ Hrecs r.1) as Hold.
    rewrite foldl_app in *. simpl in *.
    rewrite aggregate_total_add_record, Hnew, Hold, IH by done.
    rewrite input_group_total_snoc, input_total_app, input_total_singleton.
    rewrite decide_True by done. lia.
Qed.

End CounterSums.

Lemma input_group_total_le c key recs :
  input_total c (group key recs) ≤ input_total c recs.
Proof.
  unfold group, input_total. induction recs as [| r recs IH]; simpl; [done |].
  rewrite filter_cons. case_decide; simpl; lia.
Qed.

(** The accumulator of a key is built from the records of its group alone,
    in input order. *)
Lemma lookup_foldl_add_record_group m recs key :
  foldl add_record m recs !! key =
  foldl (λ o r, Some (accumulate (default zero_values o) r.2)) (m !! key) (group key recs).
Proof.
  revert m. induction recs as [| r recs IH]; intros m; [done |].
  simpl. rewrite IH, lookup_add_record. unfold group. rewrite filter_cons.
  case_decide as Hk; [by subst | done].
Qed.

Lemma aggregate_lookup_group store entries key :
  aggregate store entries !! key =
  accumulate_group (group key (usage_records store entries)).
Proof.
  rewrite aggregate_records, lookup_foldl_add_record_group. by rewrite lookup_empty.
Qed.

Lemma usage_records_elem store entries entry b cat :
  entry ∈ entries → b ∈ admin.Buckets entry → cat ∈ admin.Categories b →
  (usage_key store (admin.User entry) b cat, cat) ∈ usage_records store entries.
Proof.
  intros He Hb Hc. unfold usage_records.
  apply list_elem_of_bind. exists entry. split; [| done].
  apply list_elem_of_bind. exists b. split; [| done].
  apply list_elem_of_bind. exists cat. split; [| done].
  apply list_elem_of_singleton. done.
Qed.

Lemma usage_records_elem_inv store entries r :
  r ∈ usage_records store entries →
  ∃ entry b cat, entry ∈ entries ∧ b ∈ admin.Buckets entry ∧ cat ∈ admin.Categories b
    ∧ r = (usage_key store (admin.User entry) b cat, cat).
Proof.
  unfold usage_records. intros Hr.
  apply list_elem_of_bind in Hr as (entry & Hr & He).
  apply list_elem_of_bind in Hr as (b & Hr & Hb).
  apply list_elem_of_bind in Hr as (cat & Hr & Hc).
  apply list_elem_of_singleton in Hr. eauto 10.
Qed.

(** The rounding of the model against the IEEE 754 specification of the
    Standard Library, on the numbers of the samples. *)
Example round_float64_binary64 :
  Forall (λ z, Z_of_spec_float (binary64_of_Z z) = Some (round_float64 z))
    [0; 1; -1; 10240; 2 ^ 53; 2 ^ 53 + 1; 2 ^ 53 + 2; 2 ^ 53 + 3; - (2 ^ 53 + 3);
     2 ^ 54 + 6; 2 ^ 54 + 11; - 2 ^ 63; 2 ^ 63 - 1; 2 ^ 64 - 1].
Proof. repeat constructor; vm_compute; reflexivity. Qed.

Example fadd_binary64 :
  Forall (λ xy, Z_of_spec_float (binary64_add xy.1 xy.2) = Some (fadd xy.1 xy.2))
    [(3, 5); (100, 200); (2 ^ 53, 1); (2 ^ 53 + 2, 3); (2 ^ 53 + 4, 2 ^ 53 + 2);
     (2 ^ 54 + 8, 3); (2 ^ 63, 2 ^ 63)].
Proof. repeat constructor; vm_compute; reflexivity. Qed.

(** The end-to-end scenario: two entries of one key are merged. *)
Example aggregate_photos :
  map_to_list (aggregate Sample.store_name Sample.photos) =
  [(Sample.photos_key,
    {| ops := 8; successfulOps := 8; bytesSent := 300; bytesReceived := 0 |})].
Proof. vm_compute. reflexivity. Qed.

(** ** The usage aggregator *)

(** C1 (conservation), as the code has it: for every input sequence of usage
    entries and each of the four counters, provided the exact sum of the
    counter over the records of each key is at most 2^53 (so that no float64
    conversion or addition rounds), the sum of the counter over all entries
    of the aggregate mapping equals its sum over all per-category records of
    the input, and the counter of each key equals the sum over the records of
    that key (0 for a key without records). *)
Theorem usage_conservation (store : string) (entries : list admin.UsageEntry) (c : Counter) :
  (∀ key, input_total c (group key (usage_records store entries)) ≤ 2 ^ 53) →
  aggregate_total c (aggregate store entries) = input_total c (usage_records store entries)
  ∧ ∀ key, aggregate_at c (aggregate store entries) key
           = input_total c (group key (usage_records store entries)).
Proof.
  intros Hbound. rewrite aggregate_records. split.
  - by apply aggregate_total_foldl_exact.
  - by apply aggregate_at_foldl_exact.
Qed.

Lemma usage_conservation_witness :
  aggregate_total BytesSent (aggregate Sample.store_name Sample.photos) = 300
  ∧ aggregate_at BytesSent (aggregate Sample.store_name Sample.photos) Sample.photos_key = 300.
Proof.
  destruct (usage_conservation Sample.store_name Sample.photos BytesSent) as [Htotal Hkey].
  - intros key. etrans; [apply input_group_total_le |]. vm_compute. discriminate.
  - split; [exact Htotal | exact (Hkey Sample.photos_key)].
Defined.

(** C1 as stated fails: a record with 2^53 + 1 operations is converted to the
    float64 2^53, and the aggregate no longer sums to the input. *)
Lemma usage_conservation_counterexample :
  aggregate_total Ops (aggregate Sample.store_name Sample.huge)
  ≠ input_total Ops (usage_records Sample.store_name Sample.huge).
Proof. vm_compute. discriminate. Qed.

Example huge_record_is_rounded :
  aggregate_total Ops (aggregate Sample.store_name Sample.huge) = 2 ^ 53
  ∧ input_total Ops (usage_records Sample.store_name Sample.huge) = 2 ^ 53 + 1.
Proof. split; vm_compute; reflexivity. Qed.

(** C9 (merge doubling), as the code has it: for every usage-entry sequence
    and each counter, provided twice the exact sum of the counter over the
    records of each key is at most 2^53, aggregating the sequence followed by
    itself yields the same keys, and under every key a counter that is
    exactly twice the one obtained by aggregating the sequence once. *)
Theorem merge_doubling (store : string) (entries : list admin.UsageEntry) (c : Counter) :
  (∀ key, 2 * input_total c (group key (usage_records store entries)) ≤ 2 ^ 53) →
  dom (aggregate store (entries ++ entries)) = dom (aggregate store entries)
  ∧ ∀ key, aggregate_at c (aggregate store (entries ++ entries)) key
           = 2 * aggregate_at c (aggregate store entries) key.
Proof.
  intros Hbound. split.
  - apply set_eq. intros key.
    rewrite !elem_of_dom, !aggregate_lookup_is_Some, usage_records_app.
    rewrite fmap_app, elem_of_app. tauto.
  - intros key.
    pose proof (input_total_nonneg c (group key (usage_records store entries))).
    rewrite !aggregate_records, usage_records_app.
    rewrite !aggregate_at_foldl_exact.
    + rewrite group_app, input_total_app. lia.
    + intros k. specialize (Hbound k).
      pose proof (input_total_nonneg c (group k (usage_records store entries))). lia.
    + intros k. specialize (Hbound k). rewrite group_app, input_total_app. lia.
Qed.

Lemma merge_doubling_witness :
  aggregate_at Ops (aggregate Sample.store_name (Sample.photos ++ Sample.photos)) Sample.photos_key
  = 2 * aggregate_at Ops (aggregate Sample.store_name Sample.photos) Sample.photos_key.
Proof.
  apply (merge_doubling Sample.store_name Sample.photos Ops).
  intros key.
  pose proof (input_group_total_le Ops key (usage_records Sample.store_name Sample.photos)) as Hle.
  assert (input_total Ops (usage_records Sample.store_name Sample.photos) = 8) as Heq
    by (vm_compute; reflexivity).
  rewrite Heq in Hle. lia.
Defined.

(** C9 as stated fails: with records of 2^53 + 2 and 3 operations under one
    key, one pass yields 2^53 + 4 and the doubled input yields 2^54 + 12,
    which is not twice as much. *)
Lemma merge_doubling_counterexample :
  aggregate_at Ops (aggregate Sample.store_name (Sample.uneven ++ Sample.uneven)) Sample.photos_key
  ≠ 2 * aggregate_at Ops (aggregate Sample.store_name Sample.uneven) Sample.photos_key.
Proof. vm_compute. discriminate. Qed.

Example uneven_records_do_not_double :
  aggregate_at Ops (aggregate Sample.store_name Sample.uneven) Sample.photos_key = 2 ^ 53 + 4
  ∧ aggregate_at Ops (aggregate Sample.store_name (Sample.uneven ++ Sample.uneven)) Sample.photos_key
    = 2 ^ 54 + 12.
Proof. split; vm_compute; reflexivity. Qed.

(** No key of the aggregate has an empty bucket component. *)
Lemma aggregate_bucket_nonempty store entries key :
  is_Some (aggregate store entries !! key) → bucket key ≠ "".
Proof.
  rewrite aggregate_lookup_is_Some. intros Hkey.
  apply list_elem_of_fmap in Hkey as (r & -> & Hr).
  apply usage_records_elem_inv in Hr as (entry & b & cat & _ & _ & _ & ->).
  simpl. unfold bucketName_of. case_decide; [discriminate | done].
Qed.

(** C6 (bucket-name defaulting): for every per-category record of the input,
    the record is filed under the key whose bucket component is
    "bucket_root" when the per-bucket record carries an empty bucket name,
    and the bucket name itself otherwise: that key is in the aggregate, its
    accumulator is the one built from the records of that key, and the
    record is one of them. *)
Theorem bucket_name_defaulting (store : string) (entries : list admin.UsageEntry)
    (entry : admin.UsageEntry) (b : admin.UsageBucket) (cat : admin.UsageCategory) :
  entry ∈ entries → b ∈ admin.Buckets entry → cat ∈ admin.Categories b →
  let key :=
    {| bucket := if decide (admin.Bucket b = "") then "bucket_root" else admin.Bucket b;
       owner := admin.User entry;
       category := admin.Category cat;
       store_label := store |} in
  is_Some (aggregate store entries !! key)
  ∧ aggregate store entries !! key = accumulate_group (group key (usage_records store entries))
  ∧ (key, cat) ∈ group key (usage_records store entries).
Proof.
  intros He Hb Hc key.
  assert ((key, cat) ∈ usage_records store entries) as Hrec
    by exact (usage_records_elem store entries entry b cat He Hb Hc).
  split; [| split].
  - apply aggregate_lookup_is_Some, list_elem_of_fmap. by exists (key, cat).
  - apply aggregate_lookup_group.
  - unfold group. by apply list_elem_of_filter.
Qed.

Lemma bucket_name_defaulting_witness :
  let key :=
    {| bucket := "bucket_root"; owner := "bob"; category := "get_obj";
       store_label := Sample.store_name |} in
  is_Some (aggregate Sample.store_name Sample.account_level !! key)
  ∧ aggregate Sample.store_name Sample.account_level !! key
    = accumulate_group (group key (usage_records Sample.store_name Sample.account_level))
  ∧ (key, Sample.get_obj 0 0) ∈ group key (usage_records Sample.store_name Sample.account_level).
Proof.
  apply (bucket_name_defaulting Sample.store_name Sample.account_level
           (Sample.entry "bob" "" [Sample.get_obj 0 0])
           {| admin.Bucket := ""; admin.Categories := [Sample.get_obj 0 0] |}
           (Sample.get_obj 0 0)); simpl; apply list_elem_of_here.
Defined.

(** ** Steps, panics and what is sent *)

Lemma MustNewConstMetric_valid d vt v labels :
  length labels = length (variableLabels d) → forallb ValidString labels = true →
  MustNewConstMetric d vt v labels = Some (constMetric d vt v labels).
Proof.
  intros Hlen Hvalid. unfold MustNewConstMetric.
  by rewrite decide_True, Hvalid by done.
Qed.

Lemma MustNewConstMetric_invalid d vt v labels :
  forallb ValidString labels = false → MustNewConstMetric d vt v labels = None.
Proof. intros Hvalid. unfold MustNewConstMetric. rewrite Hvalid. by case_decide. Qed.

Lemma MustNewConstMetric_Some d vt v labels m :
  MustNewConstMetric d vt v labels = Some m →
  m = constMetric d vt v labels
  ∧ length labels = length (variableLabels d) ∧ forallb ValidString labels = true.
Proof.
  unfold MustNewConstMetric. case_decide; [| done].
  destruct (forallb ValidString labels); [| done]. by intros [= <-].
Qed.

Lemma attempt_Some m m' : attempt m = Some m' → m' = m.
Proof.
  unfold attempt. intros Hm. apply MustNewConstMetric_Some in Hm as (-> & _).
  by destruct m.
Qed.

Lemma attempt_valid m :
  length (labelValues m) = length (variableLabels (desc m)) →
  forallb ValidString (labelValues m) = true → attempt m = Some m.
Proof.
  intros Hlen Hvalid. unfold attempt.
  rewrite MustNewConstMetric_valid by done. by destruct m.
Qed.

Lemma run_app steps1 steps2 :
  run (steps1 ++ steps2) =
  match (run steps1).2 with
  | Returns => ((run steps1).1 ++ (run steps2).1, (run steps2).2)
  | Panics => run steps1
  end.
Proof.
  induction steps1 as [| [m |] steps1 IH]; simpl.
  - by destruct (run steps2).
  - rewrite IH. destruct (run steps1) as [sent []]; simpl; [| done].
    by destruct (run steps2).
  - done.
Qed.

Lemma run_fmap_Some ms : run (Some <$> ms) = (ms, Returns).
Proof.
  induction ms as [| m ms IH]; [done |].
  rewrite fmap_cons. cbn [run]. by rewrite IH.
Qed.

Lemma sent_by_fmap_Some ms : sent_by (Some <$> ms) = ms.
Proof. unfold sent_by. by rewrite run_fmap_Some. Qed.

Lemma sent_by_None steps : sent_by (None :: steps) = [].
Proof. done. Qed.

Lemma sent_by_cons_Some m steps : sent_by (Some m :: steps) = m :: sent_by steps.
Proof. unfold sent_by. simpl. by destruct (run steps). Qed.

Lemma sent_by_app steps1 steps2 :
  sent_by (steps1 ++ steps2) =
  sent_by steps1 ++ (match (run steps1).2 with Returns => sent_by steps2 | Panics => [] end).
Proof.
  unfold sent_by. rewrite run_app.
  destruct (run steps1) as [sent []]; simpl; [done | by rewrite app_nil_r].
Qed.

Lemma sent_by_app_Some ms steps : sent_by ((Some <$> ms) ++ steps) = ms ++ sent_by steps.
Proof. by rewrite sent_by_app, sent_by_fmap_Some, run_fmap_Some. Qed.

Lemma run_Returns_iff steps : (run steps).2 = Returns ↔ Forall is_Some steps.
Proof.
  induction steps as [| [m |] steps IH]; simpl.
  - split; [constructor | done].
  - destruct (run steps) as [sent status]; simpl in *.
    rewrite Forall_cons, <- IH. split; [eauto | tauto].
  - split; [done |]. intros Hall. apply Forall_cons in Hall as [[? ?] _]. done.
Qed.

Lemma sent_by_elem m steps : m ∈ sent_by steps → Some m ∈ steps.
Proof.
  induction steps as [| [m' |] steps IH].
  - intros Hm. by apply elem_of_nil in Hm.
  - rewrite sent_by_cons_Some, !elem_of_cons. intros [-> | Hm]; auto.
  - rewrite sent_by_None. intros Hm. by apply elem_of_nil in Hm.
Qed.

Lemma sent_by_Forall (P : Metric → Prop) steps :
  Forall (from_option P True) steps → Forall P (sent_by steps).
Proof.
  intros Hsteps. apply Forall_forall. intros m Hm.
  apply sent_by_elem in Hm. rewrite Forall_forall in Hsteps.
  exact (Hsteps (Some m) Hm).
Qed.

Lemma sent_by_all_None steps : Forall (λ o, o = None) steps → sent_by steps = [].
Proof. destruct 1 as [| o steps ->]; done. Qed.

Lemma deferred_eq up :
  deferred up =
  [ constMetric Desc.up GaugeValue (Num up) [];
    constMetric Desc.scrapeDurationSeconds GaugeValue Elapsed [] ].
Proof. reflexivity. Qed.

(** What a call of [Collect] sends: what the steps of the body send, then
    the deferred sends. *)
Lemma Collect_run_eq c ro :
  Collect_run c ro =
  (sent_by (Collect_body c ro).1
   ++ deferred (match (run (Collect_body c ro).1).2 with
                | Returns => (Collect_body c ro).2
                | Panics => 1
                end),
   (run (Collect_body c ro).1).2).
Proof.
  unfold Collect_run, sent_by. destruct (Collect_body c ro) as [steps up]. simpl.
  by destruct (run steps).
Qed.

Lemma Collect_eq c ro :
  Collect c ro =
  sent_by (Collect_body c ro).1
  ++ deferred (match (run (Collect_body c ro).1).2 with
               | Returns => (Collect_body c ro).2
               | Panics => 1
               end).
Proof. unfold Collect. by rewrite Collect_run_eq. Qed.

(** ** The steps of each part *)

Lemma emit_if_present_fmap {A B C} (f : B → C) (p : option A) (metric : A → B) :
  emit_if_present p (λ x, f (metric x)) = f <$> emit_if_present p metric.
Proof. by destruct p. Qed.

Lemma emit_usage_key_attempt kv : emit_usage_key kv = attempt <$> usage_metrics kv.
Proof. by destruct kv. Qed.

Lemma user_metrics_attempt store user :
  user_metrics store user = attempt <$> user_measurements store user.
Proof.
  unfold user_metrics, user_measurements. rewrite !fmap_app.
  repeat f_equal; by match goal with |- emit_if_present ?p _ = _ => destruct p end.
Qed.

Lemma bucket_metrics_attempt store b :
  bucket_metrics store b = attempt <$> bucket_measurements store b.
Proof.
  unfold bucket_metrics, bucket_measurements. rewrite !fmap_app.
  repeat f_equal; by match goal with |- emit_if_present ?p _ = _ => destruct p end.
Qed.

Lemma attempt_from_option (P : Metric → Prop) ms :
  Forall P ms → Forall (from_option P True) (attempt <$> ms).
Proof.
  intros Hms. apply Forall_fmap. eapply Forall_impl; [exact Hms |].
  intros m Hm. simpl. destruct (attempt m) as [m' |] eqn:Hm'; [| done].
  apply attempt_Some in Hm' as ->. done.
Qed.

Lemma attempt_all_valid ms :
  Forall (λ m, length (labelValues m) = length (variableLabels (desc m))
               ∧ forallb ValidString (labelValues m) = true) ms →
  attempt <$> ms = Some <$> ms.
Proof.
  induction 1 as [| m ms [Hlen Hvalid] _ IH]; [done |].
  rewrite !fmap_cons, IH. by rewrite attempt_valid.
Qed.

Lemma attempt_all_invalid ms :
  Forall (λ m, forallb ValidString (labelValues m) = false) ms →
  Forall (λ o, o = None) (attempt <$> ms).
Proof.
  intros Hms. apply Forall_fmap. eapply Forall_impl; [exact Hms |].
  intros m Hm. by apply MustNewConstMetric_invalid.
Qed.

(** ** What each part of the pass sends *)

Lemma filter_Forall_not {A} (P : A → Prop) `{∀ x, Decision (P x)} (l : list A) :
  Forall (λ x, ¬ P x) l → filter P l = [].
Proof.
  induction 1 as [| x l Hx _ IH]; [done |].
  rewrite filter_cons. by rewrite decide_False.
Qed.

Lemma Forall_emit_if_present {A B} (P : B → Prop) (p : option A) (metric : A → B) :
  (∀ x, P (metric x)) → Forall P (emit_if_present p metric).
Proof. intros HP. destruct p; simpl; auto. Qed.

Lemma Forall_bind_list {A B} (P : B → Prop) (f : A → list B) (l : list A) :
  (∀ x, x ∈ l → Forall P (f x)) → Forall P (l ≫= f).
Proof.
  intros Hf. apply Forall_forall. intros y Hy.
  apply list_elem_of_bind in Hy as (x & Hy & Hx).
  specialize (Hf x Hx). rewrite Forall_forall in Hf. auto.
Qed.

(** A property of the metrics that the steps of a part can send follows
    from the property of the measurements that the part builds. *)
Lemma emit_usage_steps (P : Metric → Prop) ro
    (usageAggr : gmap usageMetricKey usageMetricValues) :
  (∀ key vals, usageAggr !! key = Some vals → Forall P (usage_metrics (key, vals))) →
  Forall (from_option P True) (emit_usage ro usageAggr).
Proof.
  intros Husage. apply Forall_bind_list. intros [key vals] Hkv.
  rewrite emit_usage_key_attempt. apply attempt_from_option, Husage.
  rewrite (range_perm ro) in Hkv. by apply elem_of_map_to_list.
Qed.

Lemma collect_users_steps (P : Metric → Prop) c uids :
  (∀ user, Forall P (user_measurements (store c) user)) →
  (∀ b, Forall P (bucket_measurements (store c) b)) →
  Forall (from_option P True) (collect_users c uids).
Proof.
  intros Huser Hbucket. apply Forall_bind_list. intros uid _. unfold collect_user.
  destruct (GetUser (client c) uid) as [user |]; [| constructor].
  apply Forall_app. split.
  { rewrite user_metrics_attempt. apply attempt_from_option, Huser. }
  destruct (ListUsersBucketsWithStat (client c) uid) as [buckets |]; [| constructor].
  apply Forall_bind_list. intros b _.
  rewrite bucket_metrics_attempt. apply attempt_from_option, Hbucket.
Qed.

Lemma Collect_body_steps (P : Metric → Prop) c ro :
  (∀ usage key vals,
     GetUsage (client c) = Ok usage →
     aggregate (store c) (admin.Entries usage) !! key = Some vals →
     Forall P (usage_metrics (key, vals))) →
  (∀ user, Forall P (user_measurements (store c) user)) →
  (∀ b, Forall P (bucket_measurements (store c) b)) →
  Forall (from_option P True) (Collect_body c ro).1.
Proof.
  intros Husage Huser Hbucket. unfold Collect_body.
  destruct (GetUsage (client c)) as [usage |] eqn:Hu; [| constructor].
  assert (Forall (from_option P True)
            (emit_usage ro (aggregate (store c) (admin.Entries usage)))) as Hsent
    by (apply emit_usage_steps; eauto).
  destruct (GetUsers (client c)) as [[uids |] |]; simpl; [| | done].
  - apply Forall_app. split; [done |]. by apply collect_users_steps.
  - apply Forall_app. split; [done |]. by repeat constructor.
Qed.

Lemma user_measurements_entity store user :
  Forall (λ m, is_entity_desc (desc m) = true) (user_measurements store user).
Proof.
  unfold user_measurements.
  repeat (apply Forall_app; split); apply Forall_emit_if_present; done.
Qed.

Lemma bucket_measurements_entity store b :
  Forall (λ m, is_entity_desc (desc m) = true) (bucket_measurements store b).
Proof.
  unfold bucket_measurements.
  repeat (apply Forall_app; split); apply Forall_emit_if_present; done.
Qed.

Lemma collect_users_entity c uids :
  Forall (λ m, is_entity_desc (desc m) = true) (sent_by (collect_users c uids)).
Proof.
  apply sent_by_Forall, collect_users_steps;
    [apply user_measurements_entity | apply bucket_measurements_entity].
Qed.

Lemma usage_metrics_usage kv :
  Forall (λ m, is_usage_desc (desc m) = true) (usage_metrics kv).
Proof. destruct kv as [key vals]. repeat constructor. Qed.

Lemma emit_usage_usage ro usageAggr :
  Forall (λ m, is_usage_desc (desc m) = true) (sent_by (emit_usage ro usageAggr)).
Proof.
  apply sent_by_Forall, emit_usage_steps. intros key vals _. apply usage_metrics_usage.
Qed.

Lemma deferred_meta up : Forall (λ m, is_meta_desc (desc m) = true) (deferred up).
Proof. rewrite deferred_eq. repeat constructor. Qed.

Lemma sent_of_app d ms1 ms2 :
  sent_of d (ms1 ++ ms2) = sent_of d ms1 ++ sent_of d ms2.
Proof. apply filter_app. Qed.

Lemma sent_of_other_part (part : Desc.t → bool) d ms :
  part d = false → Forall (λ m, part (desc m) = true) ms → sent_of d ms = [].
Proof.
  intros Hd Hms. apply filter_Forall_not.
  eapply Forall_impl; [exact Hms |]. simpl. intros m Hm Heq. rewrite Heq in Hm. congruence.
Qed.



(** The parts of what a pass sends: the usage measurements that the usage
    sends get through, the user and bucket measurements that the walk gets
    through, the two deferred measurements. *)
Lemma Collect_parts c ro :
  ∃ es up,
    Collect c ro =
      match GetUsage (client c) with
      | Ok usage => sent_by (emit_usage ro (aggregate (store c) (admin.Entries usage)))
      | Err _ => []
      end ++ es ++ deferred up
    ∧ Forall (λ m, is_entity_desc (desc m) = true) es
    ∧ (up = 0 ∨ up = 1).
Proof.
  rewrite Collect_eq. unfold Collect_body.
  destruct (GetUsage (client c)) as [usage |]; [| exists [], 0; simpl; auto].
  set (sent := emit_usage ro (aggregate (store c) (admin.Entries usage))).
  destruct (GetUsers (client c)) as [[uids |] |]; simpl.
  - rewrite sent_by_app, run_app.
    destruct (run sent).2 eqn:Hsent; rewrite ?Hsent.
    + exists (sent_by (collect_users c uids)), 1. rewrite <- app_assoc.
      split; [by destruct (run (collect_users c uids)).2 |].
      split; [apply collect_users_entity | auto].
    + exists [], 1. rewrite app_nil_r. auto.
  - rewrite sent_by_app, run_app. exists [], 1.
    destruct (run sent).2 eqn:Hsent; rewrite ?Hsent; simpl;
      rewrite ?sent_by_None, ?app_nil_r; auto.
  - exists [], (match (run sent).2 with Returns => 0 | Panics => 1 end).
    split; [done |]. split; [done |]. destruct (run sent).2; auto.
Qed.

Lemma key_labels_inj key1 key2 : key_labels key1 = key_labels key2 → key1 = key2.
Proof. destruct key1, key2. unfold key_labels. simpl. congruence. Qed.




Lemma counter_desc_usage d : is_usage_desc (counter_desc d) = true.
Proof. by destruct d. Qed.



(** ** The usage sends and the validity of their label values *)

Lemma usage_metrics_labels key vals :
  Forall (λ m, length (labelValues m) = length (variableLabels (desc m))
               ∧ labelValues m = key_labels key) (usage_metrics (key, vals)).
Proof. repeat constructor. Qed.

Lemma emit_usage_key_valid key vals :
  forallb ValidString (key_labels key) = true →
  emit_usage_key (key, vals) = Some <$> usage_metrics (key, vals).
Proof.
  intros Hvalid. rewrite emit_usage_key_attempt. apply attempt_all_valid.
  eapply Forall_impl; [apply usage_metrics_labels |]. simpl.
  intros m [Hlen Hlabels]. split; [done | by rewrite Hlabels].
Qed.

Lemma emit_usage_key_invalid key vals steps :
  forallb ValidString (key_labels key) = false →
  sent_by (emit_usage_key (key, vals) ++ steps) = [].
Proof.
  intros Hvalid. simpl. unfold MustNewConstMetric at 1. rewrite Hvalid.
  by case_decide.
Qed.

(** The usage sends get through for the keys of the range up to the first
    one whose label values are not valid. *)
Lemma sent_by_usage_steps (l : list (usageMetricKey * usageMetricValues)) :
  ∃ l', l' `prefix_of` l ∧ sent_by (l ≫= emit_usage_key) = l' ≫= usage_metrics.
Proof.
  induction l as [| [key vals] l (l' & Hprefix & IH)]; [by exists [] |].
  rewrite bind_cons.
  destruct (forallb ValidString (key_labels key)) eqn:Hvalid.
  - exists ((key, vals) :: l'). split; [by apply prefix_cons |].
    by rewrite emit_usage_key_valid, sent_by_app_Some, IH, bind_cons.
  - exists []. split; [apply prefix_nil |].
    by apply emit_usage_key_invalid.
Qed.

Lemma usage_steps_valid (l : list (usageMetricKey * usageMetricValues)) :
  (∀ kv, kv ∈ l → forallb ValidString (key_labels kv.1) = true) →
  l ≫= emit_usage_key = Some <$> (l ≫= usage_metrics).
Proof.
  induction l as [| [key vals] l IH]; intros Hvalid; [done |].
  rewrite !bind_cons, fmap_app, IH.
  - rewrite emit_usage_key_valid; [done |]. apply (Hvalid (key, vals)), list_elem_of_here.
  - intros kv Hkv. apply Hvalid. by apply list_elem_of_further.
Qed.

Lemma emit_usage_valid c ro usage :
  usage_labels_valid c usage →
  emit_usage ro (aggregate (store c) (admin.Entries usage)) =
  Some <$> usage_measurements ro (aggregate (store c) (admin.Entries usage)).
Proof.
  intros Hvalid. apply usage_steps_valid. intros [key vals] Hkv.
  apply Hvalid, elem_of_dom. exists vals.
  rewrite (range_perm ro) in Hkv. by apply elem_of_map_to_list.
Qed.

Lemma emit_usage_Returns_iff c ro usage :
  (run (emit_usage ro (aggregate (store c) (admin.Entries usage)))).2 = Returns
  ↔ usage_labels_valid c usage.
Proof.
  split.
  - rewrite run_Returns_iff, Forall_forall. intros Hsome key Hkey.
    apply elem_of_dom in Hkey as [vals Hvals].
    destruct (Hsome (MustNewConstMetric Desc.ops CounterValue (Num (ops vals))
                       (key_labels key))) as [m Hm].
    + apply list_elem_of_bind. exists (key, vals). split; [apply list_elem_of_here |].
      rewrite (range_perm ro). by apply elem_of_map_to_list.
    + by apply MustNewConstMetric_Some in Hm as (_ & _ & Hvalid).
  - intros Hvalid. by rewrite emit_usage_valid, run_fmap_Some.
Qed.


Lemma NoDup_fst_prefix {A B} (l' l : list (A * B)) :
  l' `prefix_of` l → NoDup l.*1 → NoDup l'.*1.
Proof.
  intros [k ->]. rewrite fmap_app. intros Hnodup.
  by apply NoDup_app in Hnodup as (? & _ & _).
Qed.



Lemma aggregate_dom_records store entries key :
  key ∈ dom (aggregate store entries) → key ∈ (usage_records store entries).*1.
Proof. rewrite elem_of_dom. apply aggregate_lookup_is_Some. Qed.

Lemma Sample_usage_labels_valid cl :
  usage_labels_valid (Sample.collector cl) {| admin.Entries := Sample.photos |}.
Proof.
  intros key Hkey. apply aggregate_dom_records in Hkey.
  simpl in Hkey. rewrite !elem_of_cons, elem_of_nil in Hkey.
  destruct Hkey as [-> | [-> | []]]; vm_compute; reflexivity.
Qed.


(** With a store label that is not valid UTF-8 the first usage send panics:
    none of the four counters is sent, and the pass ends with the health
    measurement, still 1, and the duration. *)
Example broken_store_sends_no_counter :
  Collect_run (Sample.broken_collector Sample.gateway) range_in_order =
  ([constMetric Desc.up GaugeValue (Num 1) [];
    constMetric Desc.scrapeDurationSeconds GaugeValue Elapsed []], Panics).
Proof. vm_compute. reflexivity. Qed.

(** ** The health measurement and the fatal queries *)

Lemma health_deferred up : health (deferred up) = [Num up].
Proof. reflexivity. Qed.

Lemma health_app ms1 ms2 : health (ms1 ++ ms2) = health ms1 ++ health ms2.
Proof. unfold health. by rewrite sent_of_app, fmap_app. Qed.

Lemma health_no_meta ms :
  Forall (λ m, is_meta_desc (desc m) = false) ms → health ms = [].
Proof.
  intros Hms. unfold health, sent_of. rewrite filter_Forall_not; [done |].
  eapply Forall_impl; [exact Hms |]. simpl. intros m Hm Heq. by rewrite Heq in Hm.
Qed.

Lemma usage_desc_not_meta d : is_usage_desc d = true → is_meta_desc d = false.
Proof. by destruct d. Qed.

Lemma entity_desc_not_meta d : is_entity_desc d = true → is_meta_desc d = false.
Proof. by destruct d. Qed.

Lemma usage_desc_not_entity d : is_usage_desc d = true → is_entity_desc d = false.
Proof. by destruct d. Qed.

Lemma meta_desc_not_entity d : is_meta_desc d = true → is_entity_desc d = false.
Proof. by destruct d. Qed.

Lemma Collect_body_not_meta c ro :
  Forall (λ m, is_meta_desc (desc m) = false) (sent_by (Collect_body c ro).1).
Proof.
  apply sent_by_Forall, Collect_body_steps.
  - intros usage key vals _ _. eapply Forall_impl; [apply usage_metrics_usage |].
    intros m. apply usage_desc_not_meta.
  - intros user. eapply Forall_impl; [apply user_measurements_entity |].
    intros m. apply entity_desc_not_meta.
  - intros b. eapply Forall_impl; [apply bucket_measurements_entity |].
    intros m. apply entity_desc_not_meta.
Qed.

(** The value of [up] when the deferred send of the health measurement
    runs. *)
Lemma health_Collect c ro :
  health (Collect c ro) =
  [Num (match (run (Collect_body c ro).1).2 with
        | Returns => (Collect_body c ro).2
        | Panics => 1
        end)].
Proof.
  rewrite Collect_eq, health_app, health_deferred.
  by rewrite (health_no_meta _ (Collect_body_not_meta c ro)).
Qed.

(** [up] is 0 when the deferred send runs exactly when the usage query has
    failed, or the listing of the users has been asked for and has failed. *)
Lemma Collect_up c ro :
  ∃ up, health (Collect c ro) = [Num up] ∧ (up = 0 ∨ up = 1)
        ∧ (up = 0 ↔ failed (GetUsage (client c))
                     ∨ (listing_asked c ∧ failed (GetUsers (client c)))).
Proof.
  eexists. split; [apply health_Collect |].
  unfold Collect_body, listing_asked.
  destruct (GetUsage (client c)) as [usage |] eqn:Husage;
    [| simpl; split; [by left | split; [by left | done]]].
  pose proof (emit_usage_Returns_iff c ro usage) as Hreturns.
  set (sent := emit_usage ro (aggregate (store c) (admin.Entries usage))) in *.
  destruct (GetUsers (client c)) as [[uids |] |]; simpl.
  - destruct (run (sent ++ collect_users c uids)).2;
      (split; [by right | split; [done | intros [[] | [_ []]]]]).
  - destruct (run (sent ++ [None])).2;
      (split; [by right | split; [done | intros [[] | [_ []]]]]).
  - destruct (run sent).2.
    + split; [auto |]. split; [| done]. intros _. right. split; [| done].
      exists usage. split; [done |]. by apply Hreturns.
    + split; [auto |]. split; [done |].
      intros [[] | [(usage' & [= <-] & Hvalid) _]].
      by apply Hreturns in Hvalid.
Qed.

Lemma listing_asked_iff c ro :
  listing_asked c
  ↔ ∃ usage, GetUsage (client c) = Ok usage
             ∧ (run (emit_usage ro (aggregate (store c) (admin.Entries usage)))).2 = Returns.
Proof.
  unfold listing_asked.
  split; intros (usage & Husage & H); exists usage; (split; [done |]);
    by apply (emit_usage_Returns_iff c ro usage).
Qed.

(** C3 (health indicator): in every pass exactly one health measurement is
    sent; it is 0 exactly when the usage query failed, or the listing of the
    users was asked for and failed, and 1 otherwise, whatever the queries
    about the individual users return. The listing is asked for when the
    usage query has succeeded and no usage send has panicked, that is, when
    the label values of the usage measurements are valid UTF-8; so when they
    are, the health measurement is 0 exactly when the usage query or the
    listing of the users fails. *)
Theorem health_semantics (c : RADOSGWCollector) (ro : RangeOrder) :
  (health (Collect c ro) = [Num 0]
   ↔ failed (GetUsage (client c)) ∨ (listing_asked c ∧ failed (GetUsers (client c))))
  ∧ (health (Collect c ro) = [Num 1]
     ↔ ¬ (failed (GetUsage (client c)) ∨ (listing_asked c ∧ failed (GetUsers (client c)))))
  ∧ (listing_asked c
     ↔ ∃ usage, GetUsage (client c) = Ok usage
                ∧ (run (emit_usage ro (aggregate (store c) (admin.Entries usage)))).2
                  = Returns)
  ∧ ((∀ usage, GetUsage (client c) = Ok usage → usage_labels_valid c usage) →
     (health (Collect c ro) = [Num 0]
      ↔ failed (GetUsage (client c)) ∨ failed (GetUsers (client c)))
     ∧ (health (Collect c ro) = [Num 1]
        ↔ ¬ (failed (GetUsage (client c)) ∨ failed (GetUsers (client c))))).
Proof.
  destruct (Collect_up c ro) as (up & -> & Hup & Hzero).
  assert (([Num up] = [Num 0] ↔ up = 0) ∧ ([Num up] = [Num 1] ↔ up ≠ 0)) as [H0 H1].
  { split; (split; [intros [= ->]; lia | intros ?; repeat f_equal; lia]). }
  split; [by rewrite H0 |]. split; [by rewrite H1, Hzero |].
  split; [apply listing_asked_iff |].
  intros Hvalid.
  assert (failed (GetUsage (client c)) ∨ (listing_asked c ∧ failed (GetUsers (client c)))
          ↔ failed (GetUsage (client c)) ∨ failed (GetUsers (client c))) as Hsame.
  { unfold listing_asked. destruct (GetUsage (client c)) as [usage |]; simpl; [| tauto].
    split; [tauto |]. intros [[] | Hfail]. right. split; [| done].
    exists usage. split; [done |]. by apply Hvalid. }
  rewrite H0, H1, Hzero, Hsame. done.
Qed.

Lemma health_semantics_witness :
  health (Collect (Sample.collector Sample.listing_down) range_in_order) = [Num 0]
  ↔ failed (GetUsage Sample.listing_down) ∨ failed (GetUsers Sample.listing_down).
Proof.
  refine (proj1 (proj2 (proj2 (proj2 (health_semantics
            (Sample.collector Sample.listing_down) range_in_order))) _)).
  intros usage [= <-]. apply Sample_usage_labels_valid.
Defined.

Example health_with_failing_users :
  failed (GetUser Sample.gateway "bob")
  ∧ failed (ListUsersBucketsWithStat Sample.gateway "carol")
  ∧ health (Collect (Sample.collector Sample.gateway) range_in_order) = [Num 1].
Proof. repeat split. Qed.

(** A listing that would fail is not asked for when a usage send panics:
    the health measurement stays 1. *)
Example health_when_usage_send_panics :
  failed (GetUsers Sample.listing_down)
  ∧ ¬ listing_asked (Sample.broken_collector Sample.listing_down)
  ∧ health (Collect (Sample.broken_collector Sample.listing_down) range_in_order)
    = [Num 1].
Proof.
  split; [exact I |]. split; [| vm_compute; reflexivity].
  rewrite (listing_asked_iff _ range_in_order). intros (usage & [= <-] & Hrun).
  vm_compute in Hrun. discriminate.
Qed.

(** C2 (fatal-pass output), as the code has it: in a pass whose usage query
    fails, what is sent is exactly the health measurement with value 0 and
    the duration measurement, and [Collect] returns; in a pass whose usage
    query succeeds and whose listing of the users fails, the usage
    measurements of the aggregate have been sent already: when their label
    values are valid UTF-8 they are all sent and are followed by the health
    measurement with value 0 and the duration measurement, and [Collect]
    returns; when they are not, a usage send panics, the listing is not
    asked for, the health measurement is 1 and the panic leaves [Collect].
    In all these cases no user or bucket measurement is sent. *)
Theorem fatal_pass_output (c : RADOSGWCollector) (ro : RangeOrder) :
  failed (GetUsage (client c)) ∨ failed (GetUsers (client c)) →
  (failed (GetUsage (client c)) → Collect_run c ro = (deferred 0, Returns))
  ∧ (∀ usage, GetUsage (client c) = Ok usage → usage_labels_valid c usage →
       Collect_run c ro =
       (usage_measurements ro (aggregate (store c) (admin.Entries usage)) ++ deferred 0,
        Returns))
  ∧ (∀ usage, GetUsage (client c) = Ok usage → ¬ usage_labels_valid c usage →
       Collect_status c ro = Panics ∧ health (Collect c ro) = [Num 1])
  ∧ Forall (λ m, is_entity_desc (desc m) = false) (Collect c ro).
Proof.
  intros Hfatal. rewrite health_Collect. unfold Collect_status, Collect.
  rewrite Collect_run_eq. unfold Collect_body.
  destruct (GetUsage (client c)) as [usage |] eqn:Husage; simpl in *.
  - destruct (GetUsers (client c)) as [uids |]; simpl in *; [tauto |].
    pose proof (emit_usage_Returns_iff c ro usage) as Hreturns.
    split; [done |]. split; [| split].
    + intros ? [= <-] Hvalid.
      rewrite emit_usage_valid, sent_by_fmap_Some, run_fmap_Some by done. done.
    + intros ? [= <-] Hvalid.
      destruct (run (emit_usage ro _)).2; [| done]. by destruct Hvalid; apply Hreturns.
    + apply Forall_app. split.
      * eapply Forall_impl; [apply emit_usage_usage |].
        intros m. apply usage_desc_not_entity.
      * eapply Forall_impl; [apply deferred_meta |].
        intros m. apply meta_desc_not_entity.
  - split; [done |]. split; [done |]. split; [done |]. repeat constructor.
Qed.

Lemma fatal_pass_output_witness :
  Collect_run (Sample.collector Sample.usage_down) range_in_order =
  ([ constMetric Desc.up GaugeValue (Num 0) [];
     constMetric Desc.scrapeDurationSeconds GaugeValue Elapsed [] ], Returns).
Proof.
  apply (fatal_pass_output (Sample.collector Sample.usage_down) range_in_order).
  - left. exact I.
  - exact I.
Defined.

(** C2 as stated fails: when the listing of the users fails, the usage
    measurements have been sent before the failure. *)
Lemma fatal_pass_output_counterexample :
  failed (GetUsers (client (Sample.collector Sample.listing_down)))
  ∧ sent_of Desc.ops (Collect (Sample.collector Sample.listing_down) range_in_order) =
    [constMetric Desc.ops CounterValue (Num 8)
       ["photos"; "alice"; "get_obj"; "us-east-1"]].
Proof. split; [exact I | vm_compute; reflexivity]. Qed.

(** And a panic crosses the boundary of [Collect] when the store label is
    not valid UTF-8, also in a pass whose listing of the users would fail. *)
Example fatal_pass_panics :
  failed (GetUsers (client (Sample.broken_collector Sample.listing_down)))
  ∧ Collect_run (Sample.broken_collector Sample.listing_down) range_in_order =
    ([ constMetric Desc.up GaugeValue (Num 1) [];
       constMetric Desc.scrapeDurationSeconds GaugeValue Elapsed [] ], Panics).
Proof. split; [exact I | vm_compute; reflexivity]. Qed.

(** ** The walk over the users *)

Lemma collect_users_app c uids1 uids2 :
  collect_users c (uids1 ++ uids2) = collect_users c uids1 ++ collect_users c uids2.
Proof. unfold collect_users. apply bind_app. Qed.

Lemma collect_users_cons c uid uids :
  collect_users c (uid :: uids) = collect_user c uid ++ collect_users c uids.
Proof. reflexivity. Qed.

Lemma collect_user_detail_failed c uid :
  failed (GetUser (client c) uid) → collect_user c uid = [].
Proof. unfold collect_user. by destruct (GetUser (client c) uid). Qed.

Lemma collect_user_buckets_failed c uid user :
  GetUser (client c) uid = Ok user →
  failed (ListUsersBucketsWithStat (client c) uid) →
  collect_user c uid = user_metrics (store c) user.
Proof.
  unfold collect_user. intros -> Hfail.
  destruct (ListUsersBucketsWithStat (client c) uid); [done |]. apply app_nil_r.
Qed.

(** A pass that gets to the walk sends what the usage sends and the walk
    send, then the health measurement with value 1 and the duration. *)
Lemma Collect_walk c ro usage uids :
  GetUsage (client c) = Ok usage →
  GetUsers (client c) = Ok (Some uids) →
  Collect_run c ro =
  (sent_by (emit_usage ro (aggregate (store c) (admin.Entries usage))
            ++ collect_users c uids) ++ deferred 1,
   (run (emit_usage ro (aggregate (store c) (admin.Entries usage))
         ++ collect_users c uids)).2).
Proof.
  intros Husage Husers. rewrite Collect_run_eq. unfold Collect_body.
  rewrite Husage, Husers. simpl. by destruct (run _).2.
Qed.

Lemma attempt_all_Some ms :
  Forall is_Some (attempt <$> ms) → attempt <$> ms = Some <$> ms.
Proof.
  induction ms as [| m ms IH]; [done |].
  rewrite !fmap_cons, Forall_cons. intros [[m' Hm] Hms].
  rewrite IH by done. rewrite Hm. by apply attempt_Some in Hm as ->.
Qed.

(** When no step panics, what is sent is what each part sends. *)
Lemma sent_by_app_Returns steps1 steps2 :
  (run (steps1 ++ steps2)).2 = Returns →
  sent_by (steps1 ++ steps2) = sent_by steps1 ++ sent_by steps2
  ∧ (run steps1).2 = Returns ∧ (run steps2).2 = Returns.
Proof.
  rewrite sent_by_app, !run_Returns_iff, Forall_app. intros [H1 H2].
  apply run_Returns_iff in H1 as Hrun. by rewrite Hrun.
Qed.

(** C4 (degraded-but-continuing failures), as the code has it: in a pass
    whose usage query and listing of the users succeed, for every listed
    user identifier, when the detail fetch of the user fails no step is run
    for that user; when the detail fetch succeeds and the bucket-list fetch
    fails, the sends of the user-level measurements of the user have been
    run already and no bucket send is run for the user: in a pass that
    returns, the user-level measurements of the user are sent between what
    the walk sends for the identifiers before and after. In both cases the
    walk goes on over the remaining identifiers and the health measurement
    is 1. *)
Theorem degraded_user_skipped (c : RADOSGWCollector) (ro : RangeOrder)
    (usage : admin.Usage) (uids1 : list string) (uid : string) (uids2 : list string) :
  GetUsage (client c) = Ok usage →
  GetUsers (client c) = Ok (Some (uids1 ++ uid :: uids2)) →
  let sent := emit_usage ro (aggregate (store c) (admin.Entries usage)) in
  (failed (GetUser (client c) uid) →
     Collect c ro =
     sent_by (sent ++ collect_users c uids1 ++ collect_users c uids2) ++ deferred 1)
  ∧ (∀ user, GetUser (client c) uid = Ok user →
       failed (ListUsersBucketsWithStat (client c) uid) →
       Collect c ro =
       sent_by (sent ++ collect_users c uids1 ++ user_metrics (store c) user
                     ++ collect_users c uids2) ++ deferred 1
       ∧ (Collect_status c ro = Returns →
          Collect c ro =
          usage_measurements ro (aggregate (store c) (admin.Entries usage))
          ++ sent_by (collect_users c uids1) ++ user_measurements (store c) user
          ++ sent_by (collect_users c uids2) ++ deferred 1)).
Proof.
  intros Husage Husers sent. unfold Collect, Collect_status.
  rewrite (Collect_walk c ro usage _ Husage Husers).
  rewrite collect_users_app, collect_users_cons. fold sent. simpl. split.
  - intros Hfail. by rewrite (collect_user_detail_failed c uid Hfail).
  - intros user Huser Hfail.
    rewrite (collect_user_buckets_failed c uid user Huser Hfail).
    split; [done |]. intros Hreturns.
    apply sent_by_app_Returns in Hreturns as (-> & Hsent & Hreturns).
    apply sent_by_app_Returns in Hreturns as (-> & _ & Hreturns).
    apply sent_by_app_Returns in Hreturns as (-> & Huserm & _).
    apply (emit_usage_Returns_iff c ro usage) in Hsent.
    unfold sent. rewrite emit_usage_valid, sent_by_fmap_Some by done.
    rewrite user_metrics_attempt in Huserm |- *.
    apply run_Returns_iff, attempt_all_Some in Huserm.
    rewrite Huserm, sent_by_fmap_Some. by rewrite <- !app_assoc.
Qed.

Lemma degraded_user_skipped_witness :
  Collect (Sample.collector Sample.gateway) range_in_order =
  sent_by (emit_usage range_in_order (aggregate Sample.store_name Sample.photos)
           ++ collect_users (Sample.collector Sample.gateway) ["alice"]
           ++ collect_users (Sample.collector Sample.gateway) ["carol"])
  ++ deferred 1.
Proof.
  exact (proj1 (degraded_user_skipped (Sample.collector Sample.gateway) range_in_order
                  {| admin.Entries := Sample.photos |} ["alice"] "bob" ["carol"]
                  eq_refl eq_refl) I).
Defined.

(** C4 as stated fails: the bucket-list fetch of "carol" fails and her
    user-level measurement is sent all the same. *)
Lemma degraded_user_skipped_counterexample :
  failed (ListUsersBucketsWithStat (client (Sample.collector Sample.gateway)) "carol")
  ∧ constMetric Desc.userTotalObjects GaugeValue (Num 7) ["carol"; "us-east-1"]
    ∈ Collect (Sample.collector Sample.gateway) range_in_order.
Proof.
  split; [exact I |].
  apply (list_elem_of_lookup_2 _ 11). vm_compute. reflexivity.
Qed.

Lemma collect_users_skip c uid uids :
  collect_user c uid = [] →
  collect_users c uids = collect_users c (filter (λ u, u ≠ uid) uids).
Proof.
  intros Hskip. induction uids as [| u uids IH]; [done |].
  rewrite filter_cons. case_decide as Hu.
  - by rewrite !collect_users_cons, IH.
  - subst. by rewrite collect_users_cons, Hskip, IH.
Qed.

Lemma collect_user_same_except c c' k uid :
  same_except_user k c c' → uid ≠ k → collect_user c uid = collect_user c' uid.
Proof.
  intros (Hstore & _ & _ & Hother) Hne. destruct (Hother uid Hne) as [Huser Hbuckets].
  unfold collect_user. by rewrite Hstore, Huser, Hbuckets.
Qed.

Lemma collect_users_same_except c c' k uids :
  same_except_user k c c' → k ∉ uids → collect_users c uids = collect_users c' uids.
Proof.
  intros Hsame. induction uids as [| u uids IH]; intros Hk; [done |].
  apply not_elem_of_cons in Hk as [Hne Hk].
  rewrite !collect_users_cons, IH by done.
  by rewrite (collect_user_same_except c c' k u Hsame) by done.
Qed.

(** C5 (partial-failure isolation): for every list of user identifiers, if
    the usage query and the listing succeed and the detail fetch of user [k]
    fails, then the pass runs, after the usage sends, the steps of every
    listed user other than [k], each exactly as a pass would run it in which
    the queries about [k] answer differently (in particular, succeed), and
    the health measurement is 1. *)
Theorem partial_failure_isolation (c c' : RADOSGWCollector) (ro : RangeOrder)
    (usage : admin.Usage) (uids : list string) (k : string) :
  GetUsage (client c) = Ok usage →
  GetUsers (client c) = Ok (Some uids) →
  failed (GetUser (client c) k) →
  same_except_user k c c' →
  Collect c ro =
    sent_by (emit_usage ro (aggregate (store c') (admin.Entries usage))
             ++ collect_users c' (filter (λ uid, uid ≠ k) uids))
    ++ deferred 1
  ∧ (∀ uid, uid ≠ k → collect_user c uid = collect_user c' uid)
  ∧ health (Collect c ro) = [Num 1].
Proof.
  intros Husage Husers Hfail Hsame.
  assert (Collect c ro =
          sent_by (emit_usage ro (aggregate (store c') (admin.Entries usage))
                   ++ collect_users c' (filter (λ uid, uid ≠ k) uids))
          ++ deferred 1) as Hsent.
  { unfold Collect. rewrite (Collect_walk c ro usage uids Husage Husers). simpl.
    rewrite (collect_users_skip c k uids (collect_user_detail_failed c k Hfail)).
    rewrite (collect_users_same_except c c' k _ Hsame).
    + by destruct Hsame as [-> _].
    + intros Hin. apply list_elem_of_filter in Hin as [Hne _]. done. }
  split; [done |]. split.
  - intros uid Hne. by apply (collect_user_same_except c c' k).
  - rewrite health_Collect. unfold Collect_body. rewrite Husage, Husers. simpl.
    by destruct (run _).2.
Qed.

Lemma same_except_bob :
  same_except_user "bob" (Sample.collector Sample.gateway)
    (Sample.collector Sample.gateway_with_bob).
Proof.
  split; [reflexivity |]. split; [reflexivity |]. split; [reflexivity |].
  intros u Hu. apply String.eqb_neq in Hu. simpl. rewrite Hu. by split.
Qed.

Lemma partial_failure_isolation_witness :
  Collect (Sample.collector Sample.gateway) range_in_order =
    sent_by (emit_usage range_in_order (aggregate Sample.store_name Sample.photos)
             ++ collect_users (Sample.collector Sample.gateway_with_bob) ["alice"; "carol"])
    ++ deferred 1
  ∧ (∀ uid, uid ≠ "bob" →
       collect_user (Sample.collector Sample.gateway) uid
       = collect_user (Sample.collector Sample.gateway_with_bob) uid)
  ∧ health (Collect (Sample.collector Sample.gateway) range_in_order) = [Num 1].
Proof.
  exact (partial_failure_isolation (Sample.collector Sample.gateway)
           (Sample.collector Sample.gateway_with_bob) range_in_order
           {| admin.Entries := Sample.photos |} ["alice"; "bob"; "carol"] "bob"
           eq_refl eq_refl I same_except_bob).
Defined.

(** ** The projection of user and bucket records *)

Lemma user_measurements_labels store user :
  Forall (λ m, length (labelValues m) = length (variableLabels (desc m))
               ∧ labelValues m = [admin.ID user; store])
    (user_measurements store user).
Proof.
  unfold user_measurements.
  repeat (apply Forall_app; split); apply Forall_emit_if_present; done.
Qed.

Lemma bucket_measurements_labels store b :
  Forall (λ m, length (labelValues m) = length (variableLabels (desc m))
               ∧ labelValues m
                 = [admin.BucketInfo_Bucket b; admin.Owner b; bucket_total; store])
    (bucket_measurements store b).
Proof.
  unfold bucket_measurements.
  repeat (apply Forall_app; split); apply Forall_emit_if_present; done.
Qed.

(** The sends of one record carry the same label values: either each of
    them builds its metric, or the first one panics. *)
Lemma sent_by_attempt_labels labels ms :
  Forall (λ m, length (labelValues m) = length (variableLabels (desc m))
               ∧ labelValues m = labels) ms →
  sent_by (attempt <$> ms) = if forallb ValidString labels then ms else [].
Proof.
  intros Hms. destruct (forallb ValidString labels) eqn:Hvalid.
  - rewrite attempt_all_valid, sent_by_fmap_Some; [done |].
    eapply Forall_impl; [exact Hms |]. simpl.
    intros m [Hlen Hlabels]. split; [done | by rewrite Hlabels].
  - apply sent_by_all_None, attempt_all_invalid.
    eapply Forall_impl; [exact Hms |]. simpl.
    intros m [_ Hlabels]. by rewrite Hlabels.
Qed.

Lemma user_metrics_sent store user :
  sent_by (user_metrics store user) =
  if forallb ValidString [admin.ID user; store] then user_measurements store user else [].
Proof.
  rewrite user_metrics_attempt.
  apply sent_by_attempt_labels, user_measurements_labels.
Qed.

Lemma bucket_metrics_sent store b :
  sent_by (bucket_metrics store b) =
  if forallb ValidString [admin.BucketInfo_Bucket b; admin.Owner b; bucket_total; store]
  then bucket_measurements store b else [].
Proof.
  rewrite bucket_metrics_attempt.
  apply sent_by_attempt_labels, bucket_measurements_labels.
Qed.

Lemma round_float64_bool b : round_float64 (Z_of_bool b) = float64_of_bool b.
Proof. by destruct b. Qed.

Lemma sent_of_emit_gauge {A} d d' labels (p : option A) (g : A → float64) :
  sent_of d (emit_if_present p (λ x, const_gauge d' labels (g x))) =
  if decide (d' = d) then emit_if_present p (λ x, const_gauge d' labels (g x)) else [].
Proof.
  destruct p as [x |]; simpl; [| by case_decide].
  unfold sent_of. rewrite filter_cons. simpl. by repeat case_decide.
Qed.

(** Each measurement of [user_measurements] and [bucket_measurements] is
    kept or dropped by [sent_of] according to its descriptor alone. *)
Ltac select_sends :=
  rewrite ?sent_of_app, !sent_of_emit_gauge;
  cbn [decide decide_rel Desc.eq_dec Desc.t_rec Desc.t_rect sumbool_rec sumbool_rect];
  rewrite ?app_nil_l, ?app_nil_r.

(** The measurement of each optional field of the record. *)
Lemma sent_of_user_field store user f :
  sent_of (user_field_desc f) (user_measurements store user) =
  match user_field f user with
  | Some x => [const_gauge (user_field_desc f) [admin.ID user; store] (user_field_sent f x)]
  | None => []
  end.
Proof.
  unfold user_measurements, user_field, user_field_sent.
  destruct f; cbn [user_field_desc is_size_kb]; select_sends.
  - by destruct (admin.NumObjects _).
  - by destruct (admin.Size _).
  - destruct (admin.Enabled _) as [b |]; [| done]. simpl. by rewrite round_float64_bool.
  - by destruct (admin.MaxSizeKb _).
  - by destruct (admin.MaxObjects _).
  - destruct (admin.Enabled _) as [b |]; [| done]. simpl. by rewrite round_float64_bool.
  - by destruct (admin.MaxSizeKb _).
  - by destruct (admin.MaxObjects _).
Qed.

Lemma sent_of_bucket_field store b f :
  sent_of (bucket_field_desc f) (bucket_measurements store b) =
  match bucket_field f b with
  | Some x =>
      [const_gauge (bucket_field_desc f)
         [admin.BucketInfo_Bucket b; admin.Owner b; bucket_total; store]
         (round_float64 x)]
  | None => []
  end.
Proof.
  unfold bucket_measurements, bucket_field.
  destruct f; cbn [bucket_field_desc]; select_sends.
  - by destruct (admin.RgwMain_NumObjects _).
  - by destruct (admin.SizeActual _).
Qed.

(** A number with at most 53 significant bits, shifted left, is a float64:
    rounding leaves it as it is. *)
Lemma round_float64_exact_shifted m k :
  0 ≤ k → Z.abs m < 2 ^ 53 → round_float64 (m * 2 ^ k) = m * 2 ^ k.
Proof.
  intros Hk Hm. unfold round_float64.
  destruct (decide (m = 0)) as [-> | Hnz]; [by rewrite Z.mul_0_l |].
  assert (0 < 2 ^ k) as Hpow by (apply Z.pow_pos_nonneg; lia).
  assert (Z.abs (m * 2 ^ k) = Z.abs m * 2 ^ k) as Habs
    by (rewrite Z.abs_mul, (Z.abs_eq (2 ^ k)); lia).
  rewrite Habs, Z.log2_mul_pow2 by lia.
  assert (Z.log2 (Z.abs m) < 53) as Hlog by (apply Z.log2_lt_pow2; lia).
  destruct (Z.leb_spec (k + Z.log2 (Z.abs m) - 52) 0) as [He | He]; [done |].
  set (e := k + Z.log2 (Z.abs m) - 52) in *.
  assert (2 ^ k = 2 ^ (k - e) * 2 ^ e) as Hsplit
    by (rewrite <- Z.pow_add_r by lia; f_equal; lia).
  assert (0 < 2 ^ e) as Hpe by (apply Z.pow_pos_nonneg; lia).
  assert (0 < 2 ^ (e - 1)) as Hhalf by (apply Z.pow_pos_nonneg; lia).
  assert (Z.abs m * 2 ^ k = Z.abs m * 2 ^ (k - e) * 2 ^ e) as Hshift
    by (rewrite Hsplit at 1; apply Z.mul_assoc).
  rewrite Hshift, Z.mod_mul, Z.div_mul by lia.
  destruct (Z.ltb_spec 0 (2 ^ (e - 1))) as [_ | ?]; [| lia].
  rewrite <- Hshift, <- Habs.
  rewrite Z.mul_comm. apply Z.abs_sgn.
Qed.

Lemma int_mul_1024_exact x : - 2 ^ 53 ≤ x < 2 ^ 53 → int_mul x 1024 = x * 1024.
Proof.
  intros Hx. unfold int_mul, wrap_int64. rewrite Z.mod_small; lia.
Qed.

Lemma user_field_sent_exact f x :
  - 2 ^ 53 ≤ x < 2 ^ 53 →
  user_field_sent f x = if is_size_kb f then x * 1024 else x.
Proof.
  intros Hx. unfold user_field_sent. destruct (is_size_kb f).
  - rewrite int_mul_1024_exact by done. unfold float64_of_int64.
    destruct (decide (x = - 2 ^ 53)) as [-> | Hne]; [vm_compute; reflexivity |].
    change 1024 with (2 ^ 10). apply round_float64_exact_shifted; lia.
  - apply round_float64_exact. lia.
Qed.



(** With a store label that is not valid UTF-8 the first send of a record
    panics: nothing is sent for the record, present fields included. *)
Example broken_store_sends_no_field :
  user_field StatNumObjects Sample.alice = Some 0
  ∧ sent_by (user_metrics Sample.broken_store Sample.alice) = [].
Proof. split; reflexivity. Qed.

(** C8 (KiB-to-byte conversion), where the code departs from it: the
    product of the quota by 1024 is computed on the 64-bit integer before
    the conversion to float64, so a user quota of 2^53 KiB wraps around and
    the measurement sent carries -2^63, where the product of the two
    numbers, 2^63, is a float64. *)
Theorem kib_to_byte_conversion_overflow :
  user_field UserQuotaMaxSizeKb Sample.dave = Some (2 ^ 53)
  ∧ sent_of Desc.userQuotaMaxSizeBytes (sent_by (user_metrics "us-east-1" Sample.dave))
    = [constMetric Desc.userQuotaMaxSizeBytes GaugeValue (Num (- 2 ^ 63))
         ["dave"; "us-east-1"]]
  ∧ round_float64 (2 ^ 53 * 1024) = 2 ^ 63.
Proof. repeat split; vm_compute; reflexivity. Qed.

(** Within -2^53 <= x < 2^53 the product does not wrap around: the
    measurement sent for a size in kibibytes carries exactly [x * 1024], and
    the measurement of every other field of a user record carries [x]
    itself; the fields of a bucket record are sent unconverted as well. *)
Lemma kib_to_byte_conversion_in_range (store : string) (user : admin.UserInfo)
    (b : admin.BucketInfo) :
  (forallb ValidString [admin.ID user; store] = true →
   ∀ f x, user_field f user = Some x → - 2 ^ 53 ≤ x < 2 ^ 53 →
     sent_of (user_field_desc f) (sent_by (user_metrics store user)) =
     [constMetric (user_field_desc f) GaugeValue
        (Num (if is_size_kb f then x * 1024 else x)) [admin.ID user; store]])
  ∧ (forallb ValidString
       [admin.BucketInfo_Bucket b; admin.Owner b; bucket_total; store] = true →
     ∀ f x, bucket_field f b = Some x → x < 2 ^ 53 →
       sent_of (bucket_field_desc f) (sent_by (bucket_metrics store b)) =
       [constMetric (bucket_field_desc f) GaugeValue (Num x)
          [admin.BucketInfo_Bucket b; admin.Owner b; bucket_total; store]]).
Proof.
  rewrite user_metrics_sent, bucket_metrics_sent.
  split; intros -> f x Hf Hx.
  - by rewrite sent_of_user_field, Hf, user_field_sent_exact.
  - rewrite sent_of_bucket_field, Hf, round_float64_exact; [done |].
    assert (0 ≤ x); [| lia].
    destruct f; simpl in Hf;
      [destruct (admin.RgwMain_NumObjects _) | destruct (admin.SizeActual _)];
      simplify_eq/=; lia.
Qed.

Example quota_of_ten_kib :
  sent_of Desc.userQuotaMaxSizeBytes (sent_by (user_metrics "us-east-1" Sample.alice))
  = [constMetric Desc.userQuotaMaxSizeBytes GaugeValue (Num 10240) ["alice"; "us-east-1"]].
Proof.
  apply (proj1 (kib_to_byte_conversion_in_range "us-east-1" Sample.alice
                  Sample.photos_bucket) eq_refl UserQuotaMaxSizeKb 10); [reflexivity | lia].
Qed.

(** * Further properties of the collector *)

(** ** Properties of every measurement of a pass *)

(** A property of all the measurements of a pass follows from the property
    of the sends of each part. *)
Lemma Collect_Forall (P : Metric → Prop) c ro :
  (∀ usage key vals,
     GetUsage (client c) = Ok usage →
     aggregate (store c) (admin.Entries usage) !! key = Some vals →
     Forall P (usage_metrics (key, vals))) →
  (∀ user, Forall P (user_measurements (store c) user)) →
  (∀ b, Forall P (bucket_measurements (store c) b)) →
  (∀ up, up = 0 ∨ up = 1 → Forall P (deferred up)) →
  Forall P (Collect c ro).
Proof.
  intros Husage Huser Hbucket Hdeferred.
  rewrite Collect_eq. apply Forall_app. split.
  - by apply sent_by_Forall, Collect_body_steps.
  - apply Hdeferred. destruct (run _).2; [| by right].
    unfold Collect_body. destruct (GetUsage (client c)); [| by left].
    destruct (GetUsers (client c)) as [[uids |] |]; simpl; auto.
Qed.

Lemma aggregate_store_label store entries key :
  is_Some (aggregate store entries !! key) → store_label key = store.
Proof.
  rewrite aggregate_lookup_is_Some. intros Hkey.
  apply list_elem_of_fmap in Hkey as (r & -> & Hr).
  by apply usage_records_elem_inv in Hr as (entry & b & cat & _ & _ & _ & ->).
Qed.

(** Each measurement of [user_measurements] and [bucket_measurements] has
    the property, and each element of an explicit list of measurements. *)
Ltac each_send :=
  repeat (apply Forall_app; split); apply Forall_emit_if_present; intro; simpl.

Ltac each_listed :=
  repeat first [apply Forall_nil_2 | apply Forall_cons_2]; simpl.

(** X1: [Describe] sends each of the sixteen descriptors of the collector,
    none of them twice, so the descriptor of every measurement of every pass
    has been described. *)
Theorem Describe_covers_Collect (c : RADOSGWCollector) (ro : RangeOrder) :
  NoDup Describe
  ∧ (∀ d : Desc.t, d ∈ Describe)
  ∧ Forall (λ m, desc m ∈ Describe) (Collect c ro).
Proof.
  assert (∀ d : Desc.t, d ∈ Describe) as Hall
    by (intros d; apply list_elem_of_In; destruct d; simpl; tauto).
  split; [| split; [done |]].
  - apply (bool_decide_unpack _). vm_compute. exact I.
  - apply Forall_forall. auto.
Qed.

(** X2: no two descriptors share a fully-qualified name. *)
Theorem fqName_distinct (d1 d2 : Desc.t) : d1 ≠ d2 → fqName d1 ≠ fqName d2.
Proof.
  intros Hne Heq. apply Hne. clear Hne.
  destruct d1, d2; simpl in Heq; try reflexivity; discriminate Heq.
Qed.

Lemma fqName_distinct_witness : fqName Desc.userQuotaMaxSizeBytes ≠ fqName Desc.userQuotaMaxObjects.
Proof. apply fqName_distinct. discriminate. Defined.


(** X4: the configured store is the last label value of every measurement
    that has labels; only the health and duration measurements have none. *)
Theorem store_label_everywhere (c : RADOSGWCollector) (ro : RangeOrder) :
  Forall (λ m, if is_meta_desc (desc m) then labelValues m = []
               else last (labelValues m) = Some (store c)) (Collect c ro).
Proof.
  apply Collect_Forall.
  - intros usage key vals _ Hkey. simpl.
    assert (store_label key = store c) as <- by (by eapply aggregate_store_label).
    repeat constructor.
  - intros user. unfold user_measurements. each_send; reflexivity.
  - intros b. unfold bucket_measurements. each_send; reflexivity.
  - intros up _. rewrite deferred_eq. repeat constructor.
Qed.

(** X5: the four usage metrics are sent as counters, and every other
    measurement as a gauge. *)
Theorem counters_and_gauges (c : RADOSGWCollector) (ro : RangeOrder) :
  Forall (λ m, valueType m = if is_usage_desc (desc m) then CounterValue else GaugeValue)
    (Collect c ro).
Proof.
  apply Collect_Forall.
  - intros usage key vals _ _. repeat constructor.
  - intros user. unfold user_measurements. each_send; reflexivity.
  - intros b. unfold bucket_measurements. each_send; reflexivity.
  - intros up _. rewrite deferred_eq. repeat constructor.
Qed.

(** X6: every bucket measurement carries the category "bucket_total" as its
    third label value. *)
Theorem bucket_total_category (c : RADOSGWCollector) (ro : RangeOrder) :
  Forall (λ m, desc m = Desc.bucketUsageBytes ∨ desc m = Desc.bucketUsageObjects →
               labelValues m !! 2%nat = Some "bucket_total") (Collect c ro).
Proof.
  apply Collect_Forall.
  - intros usage key vals _ _. each_listed; intros [? | ?]; discriminate.
  - intros user. unfold user_measurements. each_send; intros [? | ?]; discriminate.
  - intros b. unfold bucket_measurements. each_send; intros _; reflexivity.
  - intros up _. rewrite deferred_eq. each_listed; intros [? | ?]; discriminate.
Qed.

(** X7: the quota-enabled measurements and the health measurement only take
    the values 0 and 1. *)
Theorem flags_are_0_or_1 (c : RADOSGWCollector) (ro : RangeOrder) :
  Forall (λ m, desc m = Desc.userQuotaEnabled ∨ desc m = Desc.userBucketQuotaEnabled
               ∨ desc m = Desc.up →
               value m = Num 0 ∨ value m = Num 1) (Collect c ro).
Proof.
  apply Collect_Forall.
  - intros usage key vals _ _. each_listed; intros [? | [? | ?]]; discriminate.
  - intros user. unfold user_measurements.
    each_send; try (intros [? | [? | ?]]; discriminate);
      intros _; match goal with b : bool |- _ => destruct b end; auto.
  - intros b. unfold bucket_measurements. each_send; intros [? | [? | ?]]; discriminate.
  - intros up [-> | ->]; rewrite deferred_eq; each_listed; auto; intros [? | [? | ?]]; discriminate.
Qed.

(** ** The shape of a pass *)

(** X8: in every pass the usage measurements come first, the user and
    bucket measurements after them, and the pass always ends with the health
    measurement (0 or 1) followed by the duration measurement. *)
Theorem pass_shape (c : RADOSGWCollector) (ro : RangeOrder) :
  ∃ us es up,
    Collect c ro = us ++ es ++ deferred up
    ∧ Forall (λ m, is_usage_desc (desc m) = true) us
    ∧ Forall (λ m, is_entity_desc (desc m) = true) es
    ∧ (up = 0 ∨ up = 1).
Proof.
  destruct (Collect_parts c ro) as (es & up & Hsent & Hes & Hup).
  eexists _, es, up. split; [exact Hsent |]. split; [| done].
  destruct (GetUsage (client c)); [apply emit_usage_usage | constructor].
Qed.

Lemma filter_Forall_all {A} (P : A → Prop) `{∀ x, Decision (P x)} (l : list A) :
  Forall P l → filter P l = l.
Proof.
  induction 1 as [| x l Hx _ IH]; [done |].
  rewrite filter_cons, decide_True by done. by rewrite IH.
Qed.

Lemma usage_sent_app ms1 ms2 : usage_sent (ms1 ++ ms2) = usage_sent ms1 ++ usage_sent ms2.
Proof. apply filter_app. Qed.

Lemma usage_sent_other_part (part : Desc.t → bool) ms :
  (∀ d, part d = true → is_usage_desc d = false) →
  Forall (λ m, part (desc m) = true) ms → usage_sent ms = [].
Proof.
  intros Hpart Hms. apply filter_Forall_not.
  eapply Forall_impl; [exact Hms |]. simpl. intros m Hm Hu.
  apply Hpart in Hm. congruence.
Qed.

(** The usage measurements of a pass are those that the usage sends get
    through, when the usage query succeeds. *)
Lemma usage_sent_Collect c ro :
  usage_sent (Collect c ro) =
  match GetUsage (client c) with
  | Ok usage => sent_by (emit_usage ro (aggregate (store c) (admin.Entries usage)))
  | Err _ => []
  end.
Proof.
  destruct (Collect_parts c ro) as (es & up & -> & Hes & _).
  rewrite !usage_sent_app.
  rewrite (usage_sent_other_part is_entity_desc es)
    by first [by intros [] | done].
  rewrite (usage_sent_other_part is_meta_desc (deferred up))
    by first [by intros [] | apply deferred_meta].
  rewrite !app_nil_r. destruct (GetUsage (client c)) as [usage |]; [| done].
  apply filter_Forall_all, emit_usage_usage.
Qed.

Lemma usage_metrics_identity key vals :
  identity <$> usage_metrics (key, vals) =
  (λ d, (d, key_labels key))
    <$> [Desc.ops; Desc.successfulOps; Desc.bytesSent; Desc.bytesReceived].
Proof. reflexivity. Qed.

Lemma usage_identities_NoDup (l : list (usageMetricKey * usageMetricValues)) :
  NoDup l.*1 → NoDup (identity <$> (l ≫= usage_metrics)).
Proof.
  induction l as [| [key vals] l IH]; intros Hnodup; [constructor |].
  rewrite fmap_cons, NoDup_cons in Hnodup. destruct Hnodup as [Hfresh Hnodup].
  rewrite bind_cons, fmap_app. apply NoDup_app. split; [| split; [| by apply IH]].
  - rewrite usage_metrics_identity. apply NoDup_fmap_2.
    + intros d1 d2 [=]. done.
    + apply (bool_decide_unpack _). vm_compute. exact I.
  - intros [d labels] Hhere Hthere.
    rewrite usage_metrics_identity in Hhere.
    apply list_elem_of_fmap in Hhere as (d' & [= -> ->] & _).
    apply list_elem_of_fmap in Hthere as (m & Hm & Hin).
    apply list_elem_of_bind in Hin as ([key' vals'] & Hin & Hkv).
    assert (labelValues m = key_labels key') as Hlabels.
    { simpl in Hin. rewrite !elem_of_cons, elem_of_nil in Hin.
      destruct Hin as [-> | [-> | [-> | [-> | []]]]]; reflexivity. }
    injection Hm as _ Hm. rewrite Hlabels in Hm. apply key_labels_inj in Hm. subst key'.
    apply Hfresh, list_elem_of_fmap. by exists (key, vals').
Qed.

(** X9: no two usage measurements of a pass have the same descriptor and
    label values, whatever the input: records whose keys coincide (an empty
    bucket name and the name "bucket_root" included) have been merged. *)
Theorem usage_identities_unique (c : RADOSGWCollector) (ro : RangeOrder) :
  NoDup (identity <$> usage_sent (Collect c ro)).
Proof.
  rewrite usage_sent_Collect. destruct (GetUsage (client c)) as [usage |]; [| constructor].
  unfold emit_usage.
  destruct (sent_by_usage_steps
              (range ro (map_to_list (aggregate (store c) (admin.Entries usage)))))
    as (l' & Hprefix & ->).
  apply usage_identities_NoDup, (NoDup_fst_prefix _ _ Hprefix).
  rewrite (range_perm ro). apply NoDup_fst_map_to_list.
Qed.

Lemma length_usage_metrics (l : list (usageMetricKey * usageMetricValues)) :
  length (l ≫= usage_metrics) = (4 * length l)%nat.
Proof.
  induction l as [| [key vals] l IH]; [done |].
  rewrite bind_cons, length_app, IH. simpl. lia.
Qed.

(** X10: the usage measurements of a pass come by four, one group per key
    of the aggregate that the usage sends get through: at most as many
    groups as the aggregate has keys, all of them when the label values of
    the usage measurements are valid UTF-8, and none when the usage query
    fails. *)
Theorem usage_measurement_count (c : RADOSGWCollector) (ro : RangeOrder) :
  ∃ n, length (usage_sent (Collect c ro)) = (4 * n)%nat
       ∧ match GetUsage (client c) with
         | Ok usage =>
             (n ≤ size (aggregate (store c) (admin.Entries usage)))%nat
             ∧ (usage_labels_valid c usage →
                n = size (aggregate (store c) (admin.Entries usage)))
         | Err _ => n = 0%nat
         end.
Proof.
  rewrite usage_sent_Collect.
  destruct (GetUsage (client c)) as [usage |]; [| by exists 0%nat].
  unfold emit_usage.
  destruct (sent_by_usage_steps
              (range ro (map_to_list (aggregate (store c) (admin.Entries usage)))))
    as (l' & Hprefix & Hsent).
  exists (length l'). rewrite Hsent, length_usage_metrics. split; [done |].
  assert (length (range ro (map_to_list (aggregate (store c) (admin.Entries usage))))
          = size (aggregate (store c) (admin.Entries usage))) as Hsize
    by (by rewrite (range_perm ro), length_map_to_list).
  split.
  - rewrite <- Hsize. by apply prefix_length.
  - intros Hvalid. rewrite <- Hsize.
    fold (emit_usage ro (aggregate (store c) (admin.Entries usage))) in Hsent.
    rewrite emit_usage_valid, sent_by_fmap_Some in Hsent by done.
    unfold usage_measurements in Hsent.
    apply (f_equal length) in Hsent. rewrite !length_usage_metrics in Hsent. lia.
Qed.

Example usage_groups_on_samples :
  length (usage_sent (Collect (Sample.collector Sample.gateway) range_in_order)) = 4%nat
  ∧ usage_sent (Collect (Sample.broken_collector Sample.gateway) range_in_order) = [].
Proof. split; vm_compute; reflexivity. Qed.

(** ** The keys of the aggregate *)

(** X11: the keys of the aggregate are exactly the keys of the per-category
    records of the input; every key carries the configured store, and none
    has an empty bucket component. *)
Theorem aggregate_keys (store : string) (entries : list admin.UsageEntry)
    (key : usageMetricKey) :
  (key ∈ dom (aggregate store entries)
   ↔ ∃ entry b cat, entry ∈ entries ∧ b ∈ admin.Buckets entry
       ∧ cat ∈ admin.Categories b ∧ key = usage_key store (admin.User entry) b cat)
  ∧ (key ∈ dom (aggregate store entries) → store_label key = store ∧ bucket key ≠ "").
Proof.
  rewrite elem_of_dom. split; [| intros Hkey; split;
    [by apply (aggregate_store_label store entries)
    | by apply (aggregate_bucket_nonempty store entries)]].
  rewrite aggregate_lookup_is_Some, list_elem_of_fmap. split.
  - intros (r & -> & Hr).
    apply usage_records_elem_inv in Hr as (entry & b & cat & He & Hb & Hc & ->).
    by exists entry, b, cat.
  - intros (entry & b & cat & He & Hb & Hc & ->).
    exists (usage_key store (admin.User entry) b cat, cat).
    split; [done |]. by apply usage_records_elem.
Qed.

(** X12: the aggregate is empty exactly when the input has no per-category
    record at all (no entry, or only entries without buckets, or only
    buckets without categories). *)
Theorem aggregate_empty_iff (store : string) (entries : list admin.UsageEntry) :
  aggregate store entries = ∅
  ↔ ∀ entry b, entry ∈ entries → b ∈ admin.Buckets entry → admin.Categories b = [].
Proof.
  split.
  - intros Hempty entry b He Hb.
    destruct (admin.Categories b) as [| cat cats] eqn:Hcats; [done |]. exfalso.
    assert (is_Some (aggregate store entries !! usage_key store (admin.User entry) b cat))
      as [v Hv].
    { apply aggregate_lookup_is_Some, list_elem_of_fmap.
      exists (usage_key store (admin.User entry) b cat, cat). split; [done |].
      apply usage_records_elem; [done | done |]. rewrite Hcats. apply list_elem_of_here. }
    by rewrite Hempty, lookup_empty in Hv.
  - intros Hnone. apply map_empty. intros key. apply eq_None_not_Some.
    rewrite aggregate_lookup_is_Some, list_elem_of_fmap. intros (r & _ & Hr).
    apply usage_records_elem_inv in Hr as (entry & b & cat & He & Hb & Hc & _).
    rewrite (Hnone entry b He Hb) in Hc. by apply elem_of_nil in Hc.
Qed.

(** ** How aggregation composes *)

(** X13: aggregating two sequences one after the other yields the keys of
    both, and, as long as the exact sum of a counter per key stays within
    2^53, under every key the sum of the counters that each sequence yields
    on its own. *)
Theorem aggregate_app (store : string) (entries1 entries2 : list admin.UsageEntry)
    (c : Counter) :
  (∀ key, input_total c (group key (usage_records store (entries1 ++ entries2))) ≤ 2 ^ 53) →
  dom (aggregate store (entries1 ++ entries2))
  = dom (aggregate store entries1) ∪ dom (aggregate store entries2)
  ∧ ∀ key, aggregate_at c (aggregate store (entries1 ++ entries2)) key
           = aggregate_at c (aggregate store entries1) key
             + aggregate_at c (aggregate store entries2) key.
Proof.
  intros Hbound. split.
  - apply set_eq. intros key.
    rewrite elem_of_union, !elem_of_dom, !aggregate_lookup_is_Some, usage_records_app.
    by rewrite fmap_app, elem_of_app.
  - intros key. rewrite usage_records_app in Hbound.
    assert (∀ k, input_total c (group k (usage_records store entries1)) ≤ 2 ^ 53) as H1.
    { intros k. specialize (Hbound k). rewrite group_app, input_total_app in Hbound.
      pose proof (input_total_nonneg c (group k (usage_records store entries2))). lia. }
    assert (∀ k, input_total c (group k (usage_records store entries2)) ≤ 2 ^ 53) as H2.
    { intros k. specialize (Hbound k). rewrite group_app, input_total_app in Hbound.
      pose proof (input_total_nonneg c (group k (usage_records store entries1))). lia. }
    rewrite !aggregate_records, usage_records_app.
    rewrite !aggregate_at_foldl_exact by done.
    by rewrite group_app, input_total_app.
Qed.

Lemma aggregate_app_witness :
  aggregate_at BytesSent (aggregate Sample.store_name (Sample.photos ++ Sample.account_level))
    Sample.photos_key
  = aggregate_at BytesSent (aggregate Sample.store_name Sample.photos) Sample.photos_key
    + aggregate_at BytesSent (aggregate Sample.store_name Sample.account_level)
        Sample.photos_key.
Proof.
  refine (proj2 (aggregate_app Sample.store_name Sample.photos Sample.account_level
                   BytesSent _) Sample.photos_key).
  intros key. etrans; [apply input_group_total_le |]. vm_compute. discriminate.
Defined.

Lemma input_total_Permutation c recs recs' :
  recs ≡ₚ recs' → input_total c recs = input_total c recs'.
Proof.
  unfold input_total. induction 1; simpl; lia.
Qed.

(** X14: the order of the entries in the response does not matter: two
    inputs that are permutations of each other yield the same keys, and, as
    long as the exact sum of a counter per key stays within 2^53, the same
    counter under every key. *)
Theorem aggregate_order_irrelevant (store : string)
    (entries entries' : list admin.UsageEntry) (c : Counter) :
  entries ≡ₚ entries' →
  (∀ key, input_total c (group key (usage_records store entries)) ≤ 2 ^ 53) →
  dom (aggregate store entries') = dom (aggregate store entries)
  ∧ ∀ key, aggregate_at c (aggregate store entries') key
           = aggregate_at c (aggregate store entries) key.
Proof.
  intros Hperm Hbound.
  assert (usage_records store entries ≡ₚ usage_records store entries') as Hrecs
    by (unfold usage_records; by rewrite Hperm).
  assert (∀ key, input_total c (group key (usage_records store entries'))
                 = input_total c (group key (usage_records store entries))) as Hsame.
  { intros key. apply input_total_Permutation. unfold group. by rewrite Hrecs. }
  split.
  - apply set_eq. intros key.
    rewrite !elem_of_dom, !aggregate_lookup_is_Some. by rewrite Hrecs.
  - intros key. rewrite !aggregate_records.
    rewrite !aggregate_at_foldl_exact; [done | done |].
    intros k. by rewrite Hsame.
Qed.

Lemma aggregate_order_irrelevant_witness :
  aggregate_at Ops (aggregate Sample.store_name (reverse Sample.photos)) Sample.photos_key
  = aggregate_at Ops (aggregate Sample.store_name Sample.photos) Sample.photos_key.
Proof.
  refine (proj2 (aggregate_order_irrelevant Sample.store_name Sample.photos
                   (reverse Sample.photos) Ops _ _) Sample.photos_key).
  - symmetry. apply reverse_Permutation.
  - intros key. etrans; [apply input_group_total_le |]. vm_compute. discriminate.
Defined.

(** ** Signs *)

Lemma round_float64_nonneg z : 0 ≤ z → 0 ≤ round_float64 z.
Proof.
  intros Hz. unfold round_float64.
  destruct (Z.leb_spec (Z.log2 (Z.abs z) - 52) 0) as [He | He]; [done |].
  set (e := Z.log2 (Z.abs z) - 52) in *.
  assert (0 < 2 ^ e) as Hpow by (apply Z.pow_pos_nonneg; lia).
  assert (0 ≤ Z.abs z / 2 ^ e) as Hq by (apply Z.div_pos; lia).
  assert (0 ≤ Z.sgn z) as Hs by (by apply Z.sgn_nonneg).
  apply Z.mul_nonneg_nonneg; [done |]. apply Z.mul_nonneg_nonneg; [| lia].
  repeat case_match; lia.
Qed.

Lemma accumulate_nonneg v cat :
  (∀ c, 0 ≤ values_counter c v) → ∀ c, 0 ≤ values_counter c (accumulate v cat).
Proof.
  intros Hv c. rewrite values_counter_accumulate.
  apply round_float64_nonneg.
  assert (0 ≤ float64_of_uint64 (category_counter c cat))
    by (apply round_float64_nonneg; lia).
  specialize (Hv c). lia.
Qed.

Lemma accumulate_group_nonneg (recs : list (usageMetricKey * admin.UsageCategory)) o :
  (∀ v, o = Some v → ∀ c, 0 ≤ values_counter c v) →
  ∀ v, foldl (λ o r, Some (accumulate (default zero_values o) r.2)) o recs = Some v →
       ∀ c, 0 ≤ values_counter c v.
Proof.
  revert o. induction recs as [| r recs IH]; intros o Ho; simpl; [done |].
  apply IH. intros v [= <-]. apply accumulate_nonneg.
  destruct o as [v0 |]; simpl; [by apply Ho |].
  intros c. by rewrite values_counter_zero.
Qed.

(** X15: no counter of the aggregate is ever negative. *)
Theorem counters_nonneg (store : string) (entries : list admin.UsageEntry)
    (key : usageMetricKey) (vals : usageMetricValues) (c : Counter) :
  aggregate store entries !! key = Some vals → 0 ≤ values_counter c vals.
Proof.
  rewrite aggregate_lookup_group. unfold accumulate_group. intros Hvals.
  by apply (accumulate_group_nonneg _ None ltac:(done) vals Hvals).
Qed.

Lemma counters_nonneg_witness :
  0 ≤ values_counter BytesSent
        {| ops := 8; successfulOps := 8; bytesSent := 300; bytesReceived := 0 |}.
Proof.
  apply (counters_nonneg Sample.store_name Sample.photos Sample.photos_key).
  vm_compute. reflexivity.
Defined.

(** ** A walk in which no user can be fetched *)

Lemma collect_users_all_failed c uids :
  Forall (λ uid, failed (GetUser (client c) uid)) uids → collect_users c uids = [].
Proof.
  induction 1 as [| uid uids Huid _ IH]; [done |].
  by rewrite collect_users_cons, (collect_user_detail_failed c uid Huid), IH.
Qed.

(** X16: in a pass whose usage query succeeds, when the listing succeeds
    and the detail fetch fails for every listed user (in particular when no
    user is listed), the pass runs the usage sends and no other step, then
    sends a health of 1 and the duration: when the label values of the usage
    measurements are valid UTF-8 it sends the usage measurements, a health
    of 1 and the duration, and returns. When the listing is a nil pointer
    without an error, the pass panics on it after the usage sends, and the
    health measurement is 1 as well. *)
Theorem no_user_fetched (c : RADOSGWCollector) (ro : RangeOrder) (usage : admin.Usage) :
  GetUsage (client c) = Ok usage →
  let sent := emit_usage ro (aggregate (store c) (admin.Entries usage)) in
  (∀ uids, GetUsers (client c) = Ok (Some uids) →
     Forall (λ uid, failed (GetUser (client c) uid)) uids →
     Collect_run c ro = (sent_by sent ++ deferred 1, (run sent).2)
     ∧ (usage_labels_valid c usage →
        Collect_run c ro =
        (usage_measurements ro (aggregate (store c) (admin.Entries usage)) ++ deferred 1,
         Returns)))
  ∧ (GetUsers (client c) = Ok None →
     Collect_run c ro = (sent_by sent ++ deferred 1, Panics)).
Proof.
  intros Husage sent. split.
  - intros uids Husers Hfail.
    rewrite (Collect_walk c ro usage uids Husage Husers).
    rewrite (collect_users_all_failed c uids Hfail), app_nil_r. fold sent.
    split; [done |]. intros Hvalid. unfold sent.
    by rewrite emit_usage_valid, sent_by_fmap_Some, run_fmap_Some.
  - intros Husers. rewrite Collect_run_eq. unfold Collect_body.
    rewrite Husage, Husers. fold sent. simpl.
    rewrite sent_by_app, run_app.
    destruct (run sent) as [ms []]; simpl; by rewrite ?app_nil_r.
Qed.

Lemma no_user_fetched_witness :
  Collect_run (Sample.collector Deployment.gateway_of_bob) range_in_order =
  (usage_measurements range_in_order (aggregate Sample.store_name Sample.photos)
   ++ deferred 1, Returns).
Proof.
  refine (proj2 (proj1 (no_user_fetched (Sample.collector Deployment.gateway_of_bob)
                          range_in_order {| admin.Entries := Sample.photos |} eq_refl)
                   ["bob"] eq_refl _)
            (Sample_usage_labels_valid Deployment.gateway_of_bob)).
  repeat constructor.
Defined.

(** * Process start-up *)

Lemma Getenv_empty_iff env key : Getenv env key = "" ↔ unset_or_empty env key.
Proof.
  unfold Getenv, unset_or_empty. destruct (env !! key) as [v |]; simpl.
  - split; [intros ->; auto | intros [? | ?]; congruence].
  - split; auto.
Qed.

Lemma getEnv_empty_fallback env key : getEnv env key "" = Getenv env key.
Proof. unfold getEnv. case_decide as Hv; [done |]. by rewrite Hv. Qed.

Lemma getEnv_unset env key fallback :
  unset_or_empty env key → getEnv env key fallback = fallback.
Proof.
  intros Hkey. apply Getenv_empty_iff in Hkey. unfold getEnv. rewrite Hkey.
  by rewrite decide_False by auto.
Qed.

Lemma getEnv_set env key fallback v :
  env !! key = Some v → v ≠ "" → getEnv env key fallback = v.
Proof.
  intros Hkey Hv. unfold getEnv, Getenv. rewrite Hkey. simpl.
  by rewrite decide_True.
Qed.

Lemma getEnv_nonempty env key fallback : fallback ≠ "" → getEnv env key fallback ≠ "".
Proof. intros Hf. unfold getEnv. by case_decide. Qed.

(** X17: [getEnv] yields the value of a variable that is set and not empty,
    and the fallback otherwise: a variable set to the empty string counts as
    not set, and the result is never empty when the fallback is not. *)
Theorem getEnv_value_or_fallback (env : gmap string string) (key fallback : string) :
  (∀ v, env !! key = Some v → v ≠ "" → getEnv env key fallback = v)
  ∧ (unset_or_empty env key → getEnv env key fallback = fallback)
  ∧ (fallback ≠ "" → getEnv env key fallback ≠ "").
Proof.
  split; [| split].
  - intros v. apply getEnv_set.
  - apply getEnv_unset.
  - apply getEnv_nonempty.
Qed.

Lemma getEnv_value_or_fallback_witness :
  getEnv Deployment.env "STORE" "us-east-1" = "prod-cluster"
  ∧ getEnv Deployment.env "METRICS_PORT" "9242" = "9242".
Proof.
  split.
  - apply (proj1 (getEnv_value_or_fallback Deployment.env "STORE" "us-east-1"));
      [vm_compute; reflexivity | discriminate].
  - apply (proj1 (proj2 (getEnv_value_or_fallback Deployment.env "METRICS_PORT" "9242"))).
    right. vm_compute. reflexivity.
Defined.

Lemma config_None_iff env :
  main.config env = None
  ↔ unset_or_empty env "RADOSGW_ENDPOINT" ∨ unset_or_empty env "ACCESS_KEY"
    ∨ unset_or_empty env "SECRET_KEY".
Proof.
  unfold main.config. rewrite !getEnv_empty_fallback, <- !Getenv_empty_iff.
  case_decide; split; done.
Qed.

(** X18: up to the construction of the server (lines 24-52), [main] exits
    exactly when one of the three required variables is not set or is empty:
    it is the exit of line 37, with status 1, before the collector is built;
    whether the admin client could be built plays no part. *)
Theorem start_exits_iff (admin_New : string → string → string → bool → result Client)
    (env : gmap string string) :
  (main.start admin_New env = main.Exit 1
   ↔ unset_or_empty env "RADOSGW_ENDPOINT" ∨ unset_or_empty env "ACCESS_KEY"
     ∨ unset_or_empty env "SECRET_KEY")
  ∧ (∀ code, main.start admin_New env = main.Exit code → main.config env = None).
Proof.
  rewrite <- config_None_iff. unfold main.start.
  destruct (main.config env) as [cfg |]; [| by split].
  destruct (NewRADOSGWCollector _ _ _ _ _ _); split; done.
Qed.

Lemma start_exits_iff_witness :
  main.start Deployment.admin_New Deployment.env_without_secret = main.Exit 1.
Proof.
  apply (proj2 (proj1 (start_exits_iff Deployment.admin_New Deployment.env_without_secret))).
  right. right. left. vm_compute. reflexivity.
Defined.

Lemma start_Serving_inv admin_New env collector Addr :
  main.start admin_New env = main.Serving collector Addr →
  ∃ cfg, main.config env = Some cfg
    ∧ store collector = main.store cfg
    ∧ Addr = ":" +:+ main.port cfg
    ∧ admin_New (main.endpoint cfg) (main.accessKey cfg) (main.secretKey cfg)
        (main.insecure cfg) = Ok (client collector).
Proof.
  unfold main.start, NewRADOSGWCollector.
  destruct (main.config env) as [cfg |]; [| done].
  destruct (admin_New _ _ _ _) as [cl |] eqn:Hnew; [| done].
  intros [= <- <-]. by exists cfg.
Qed.

Lemma config_Some_inv env cfg :
  main.config env = Some cfg →
  main.endpoint cfg = Getenv env "RADOSGW_ENDPOINT" ∧ main.endpoint cfg ≠ ""
  ∧ main.accessKey cfg = Getenv env "ACCESS_KEY" ∧ main.accessKey cfg ≠ ""
  ∧ main.secretKey cfg = Getenv env "SECRET_KEY" ∧ main.secretKey cfg ≠ ""
  ∧ main.store cfg = getEnv env "STORE" "us-east-1"
  ∧ main.port cfg = getEnv env "METRICS_PORT" "9242"
  ∧ main.insecure cfg = (ParseBool (getEnv env "INSECURE_SKIP_VERIFY" "false")).1.
Proof.
  unfold main.config. rewrite !getEnv_empty_fallback.
  case_decide as Hreq; [done |]. intros [= <-]. simpl.
  repeat split; try done; intros Heq; apply Hreq; auto.
Qed.

(** X19: when [main] gets as far as serving, the store label of the
    collector is the value of STORE, or "us-east-1" when STORE is not set or
    empty, and is never empty; the server listens on ":" followed by the
    value of METRICS_PORT, or on ":9242" when METRICS_PORT is not set or
    empty, and never on a bare ":". *)
Theorem start_defaults (admin_New : string → string → string → bool → result Client)
    (env : gmap string string) (collector : RADOSGWCollector) (Addr : string) :
  main.start admin_New env = main.Serving collector Addr →
  store collector = getEnv env "STORE" "us-east-1"
  ∧ store collector ≠ ""
  ∧ (unset_or_empty env "STORE" → store collector = "us-east-1")
  ∧ Addr = ":" +:+ getEnv env "METRICS_PORT" "9242"
  ∧ Addr ≠ ":"
  ∧ (unset_or_empty env "METRICS_PORT" → Addr = ":9242").
Proof.
  intros Hstart.
  apply start_Serving_inv in Hstart as (cfg & Hcfg & -> & -> & _).
  apply config_Some_inv in Hcfg as (_ & _ & _ & _ & _ & _ & -> & -> & _).
  repeat split.
  - by apply getEnv_nonempty.
  - intros Hunset. by apply getEnv_unset.
  - pose proof (getEnv_nonempty env "METRICS_PORT" "9242" ltac:(done)) as Hport.
    destruct (getEnv env "METRICS_PORT" "9242"); [done | discriminate].
  - intros Hunset. by rewrite getEnv_unset.
Qed.

Lemma start_defaults_witness :
  let collector := {| client := Sample.gateway; store := "prod-cluster" |} in
  store collector = getEnv Deployment.env "STORE" "us-east-1"
  ∧ store collector ≠ ""
  ∧ (unset_or_empty Deployment.env "STORE" → store collector = "us-east-1")
  ∧ ":9242" = ":" +:+ getEnv Deployment.env "METRICS_PORT" "9242"
  ∧ ":9242" ≠ ":"
  ∧ (unset_or_empty Deployment.env "METRICS_PORT" → ":9242" = ":9242").
Proof.
  apply (start_defaults Deployment.admin_New Deployment.env).
  vm_compute. reflexivity.
Defined.

Lemma ParseBool_true str : (ParseBool str).1 = true ↔ str ∈ true_spellings.
Proof.
  unfold ParseBool, true_spellings.
  repeat case_decide; simpl; split; done.
Qed.

(** X20: the verification of certificates is skipped exactly when
    INSECURE_SKIP_VERIFY is set to one of the six spellings that
    [strconv.ParseBool] reads as true; every other value, a value that does
    not parse included, and an unset or empty variable leave it on. *)
Theorem insecure_iff (env : gmap string string) (cfg : main.Config) :
  main.config env = Some cfg →
  (main.insecure cfg = true
   ↔ ∃ v, env !! "INSECURE_SKIP_VERIFY" = Some v ∧ v ∈ true_spellings).
Proof.
  intros Hcfg.
  apply config_Some_inv in Hcfg as (_ & _ & _ & _ & _ & _ & _ & _ & ->).
  rewrite ParseBool_true.
  destruct (env !! "INSECURE_SKIP_VERIFY") as [v |] eqn:Hv.
  - destruct (decide (v = "")) as [-> | Hne].
    + rewrite getEnv_unset by (by right). split.
      * intros Hin. by apply (bool_decide_pack _) in Hin.
      * intros (v & [= <-] & Hin). by apply (bool_decide_pack _) in Hin.
    + rewrite (getEnv_set _ _ _ v) by done. split; [by exists v |].
      by intros (v' & [= <-] & Hin).
  - rewrite getEnv_unset by (by left). split.
    + intros Hin. by apply (bool_decide_pack _) in Hin.
    + by intros (v & ? & _).
Qed.

Lemma insecure_iff_witness :
  ∃ v, Deployment.env !! "INSECURE_SKIP_VERIFY" = Some v ∧ v ∈ true_spellings.
Proof.
  refine (proj1 (insecure_iff Deployment.env
                   {| main.endpoint := "https://ceph-gw.example.com";
                      main.accessKey := "AK"; main.secretKey := "SK";
                      main.store := "prod-cluster"; main.port := "9242";
                      main.insecure := true |} _) eq_refl).
  vm_compute. reflexivity.
Defined.

(** X21: [main] panics exactly when the three required variables are
    present and the constructor of the admin client fails on the endpoint,
    the keys and the flag read from the environment. *)
Theorem start_panics_iff (admin_New : string → string → string → bool → result Client)
    (env : gmap string string) :
  main.start admin_New env = main.Panic
  ↔ ∃ cfg, main.config env = Some cfg
      ∧ failed (admin_New (Getenv env "RADOSGW_ENDPOINT") (Getenv env "ACCESS_KEY")
                  (Getenv env "SECRET_KEY") (main.insecure cfg)).
Proof.
  unfold main.start, NewRADOSGWCollector.
  destruct (main.config env) as [cfg |] eqn:Hcfg.
  - apply config_Some_inv in Hcfg as (<- & _ & <- & _ & <- & _).
    destruct (admin_New _ _ _ _) as [cl |] eqn:Hnew.
    + split; [done |]. intros (cfg' & [= <-] & Hfail). by rewrite Hnew in Hfail.
    + split; [| done]. intros _. exists cfg. by rewrite Hnew.
  - split; [done |]. by intros (cfg & ? & _).
Qed.

(** X22: the store configured in the environment reaches the measurements:
    once [main] serves, every labelled measurement of every pass of its
    collector ends with the value of STORE, or with "us-east-1" when STORE is
    not set or empty. *)
Theorem configured_store_on_every_label
    (admin_New : string → string → string → bool → result Client)
    (env : gmap string string) (collector : RADOSGWCollector) (Addr : string)
    (ro : RangeOrder) :
  main.start admin_New env = main.Serving collector Addr →
  Forall (λ m, is_meta_desc (desc m) = false →
               last (labelValues m) = Some (getEnv env "STORE" "us-east-1"))
    (Collect collector ro).
Proof.
  intros Hstart.
  apply start_Serving_inv in Hstart as (cfg & Hcfg & Hstore & _).
  apply config_Some_inv in Hcfg as (_ & _ & _ & _ & _ & _ & Hcfg & _).
  rewrite <- Hcfg, <- Hstore. clear.
  apply Collect_Forall.
  - intros usage key vals _ Hkey.
    assert (store_label key = store collector) as <- by (by eapply aggregate_store_label).
    each_listed; done.
  - intros user. unfold user_measurements. each_send; done.
  - intros b. unfold bucket_measurements. each_send; done.
  - intros up _. rewrite deferred_eq. each_listed; done.
Qed.

Lemma configured_store_on_every_label_witness :
  Forall (λ m, is_meta_desc (desc m) = false →
               last (labelValues m) = Some (getEnv Deployment.env "STORE" "us-east-1"))
    (Collect {| client := Sample.gateway; store := "prod-cluster" |} range_in_order).
Proof.
  apply (configured_store_on_every_label Deployment.admin_New Deployment.env _ ":9242").
  vm_compute. reflexivity.
Defined.

Lemma aggregate_keys_witness :
  store_label Sample.photos_key = Sample.store_name ∧ bucket Sample.photos_key ≠ "".
Proof.
  apply (proj2 (aggregate_keys Sample.store_name Sample.photos Sample.photos_key)).
  apply elem_of_dom. vm_compute. eauto.
Defined.

(** ** Passes that return *)

Lemma fmap_Some_is_Some (ms : list Metric) : Forall is_Some (Some <$> ms).
Proof. apply Forall_fmap, Forall_forall. by eexists. Qed.

Lemma attempt_labels_is_Some labels ms :
  Forall (λ m, length (labelValues m) = length (variableLabels (desc m))
               ∧ labelValues m = labels) ms →
  forallb ValidString labels = true → Forall is_Some (attempt <$> ms).
Proof.
  intros Hms Hvalid. rewrite attempt_all_valid; [apply fmap_Some_is_Some |].
  eapply Forall_impl; [exact Hms |]. simpl.
  intros m [Hlen Hlabels]. split; [done | by rewrite Hlabels].
Qed.

(** X23: a pass returns, without a panic, when the listing of the users is
    not a nil pointer and the label values of the measurements that it
    builds are valid UTF-8: those of the keys of the aggregate, the
    identifier of every user fetched, the name and the owner of every
    bucket listed, and the store. *)
Theorem Collect_returns (c : RADOSGWCollector) (ro : RangeOrder) :
  (∀ usage, GetUsage (client c) = Ok usage → usage_labels_valid c usage) →
  GetUsers (client c) ≠ Ok None →
  (∀ uid user, GetUser (client c) uid = Ok user →
     forallb ValidString [admin.ID user; store c] = true) →
  (∀ uid buckets b, ListUsersBucketsWithStat (client c) uid = Ok buckets → b ∈ buckets →
     forallb ValidString
       [admin.BucketInfo_Bucket b; admin.Owner b; bucket_total; store c] = true) →
  Collect_status c ro = Returns.
Proof.
  intros Husage Hlisting Huser Hbucket. unfold Collect_status.
  rewrite Collect_run_eq. simpl. apply run_Returns_iff. unfold Collect_body.
  destruct (GetUsage (client c)) as [usage |] eqn:Hu; [| constructor].
  assert (Forall is_Some (emit_usage ro (aggregate (store c) (admin.Entries usage))))
    as Hsent by (rewrite emit_usage_valid by auto; apply fmap_Some_is_Some).
  destruct (GetUsers (client c)) as [[uids |] |]; simpl; [| done | done].
  apply Forall_app. split; [done |].
  apply Forall_bind_list. intros uid _. unfold collect_user.
  destruct (GetUser (client c) uid) as [user |] eqn:Hdetail; [| constructor].
  apply Forall_app. split.
  - rewrite user_metrics_attempt.
    eapply attempt_labels_is_Some; [apply user_measurements_labels | by eapply Huser].
  - destruct (ListUsersBucketsWithStat (client c) uid) as [buckets |] eqn:Hlist;
      [| constructor].
    apply Forall_bind_list. intros b Hb. rewrite bucket_metrics_attempt.
    eapply attempt_labels_is_Some; [apply bucket_measurements_labels | by eapply Hbucket].
Qed.

Lemma Collect_returns_witness :
  Collect_status (Sample.collector Sample.gateway) range_reversed = Returns.
Proof.
  apply (Collect_returns (Sample.collector Sample.gateway) range_reversed).
  - intros usage [= <-]. apply Sample_usage_labels_valid.
  - discriminate.
  - intros uid user. simpl.
    destruct (String.eqb uid "alice"); [by intros [= <-] |].
    destruct (String.eqb uid "carol"); [by intros [= <-] | discriminate].
  - intros uid buckets b. simpl.
    destruct (String.eqb uid "alice"); [| discriminate].
    intros [= <-] Hb. apply list_elem_of_singleton in Hb as ->. reflexivity.
Defined.


